(** * ginject: the container of package [boot]

    A shallow embedding of [boot/container.go], [boot/object_builder.go] and
    the annotation scanner ([AutoRegister]), with the properties of the
    descriptor store, the capability resolver, the injection engine and the
    lifecycle orchestrator.

    Conventions of the embedding:
    - a Go map is a [gmap]; a slice is a [list];
    - a [reflect.Type] is a value of [RType]; an [interface{}] holding a
      component is an [Instance] (dynamic type and address);
    - an [error] is a value of [Error], one constructor per [fmt.Errorf]
      call site, [None] standing for [nil];
    - the mutex of the container is not modelled: every function is run
      on one control-flow path. *)

From Stdlib Require Import ZArith Strings.Ascii.
From stdpp Require Import gmap strings list fin_maps sorting.

Local Open Scope string_scope.
Local Open Scope list_scope.
Local Open Scope Z_scope.

(** ** Types as [reflect] shows them *)

(** The kind of a type that is not a pointer. *)
Inductive BaseKind := BStruct | BInterface | BOther.

(** [reflect.Kind], as far as the container looks at it. *)
Inductive Kind := Ptr | Struct | Interface | OtherKind.

(** A [reflect.Type]: a named base type under [ptr_depth] pointer
    constructors ([*T] has depth 1). *)
Record RType := mkRType {
  ptr_depth : nat;
  base_kind : BaseKind;
  base_name : string
}.

#[global] Instance BaseKind_eq_dec : EqDecision BaseKind.
Proof. solve_decision. Defined.

#[global] Instance Kind_eq_dec : EqDecision Kind.
Proof. solve_decision. Defined.

#[global] Instance RType_eq_dec : EqDecision RType.
Proof. solve_decision. Defined.

Definition BaseKind_code (k : BaseKind) : nat :=
  match k with BStruct => 0 | BInterface => 1 | BOther => 2 end%nat.

Definition BaseKind_of_code (n : nat) : BaseKind :=
  match n with O => BStruct | S O => BInterface | _ => BOther end.

Definition RType_to_tuple (t : RType) : nat * (nat * string) :=
  (ptr_depth t, (BaseKind_code (base_kind t), base_name t)).

Definition RType_of_tuple (p : nat * (nat * string)) : RType :=
  mkRType p.1 (BaseKind_of_code p.2.1) p.2.2.

#[global] Program Instance RType_countable : Countable RType :=
  inj_countable' RType_to_tuple RType_of_tuple _.
Next Obligation. by intros [d [] n]. Qed.

(** [t.Kind()] *)
Definition kindOf (t : RType) : Kind :=
  match ptr_depth t with
  | S _ => Ptr
  | O => match base_kind t with
         | BStruct => Struct
         | BInterface => Interface
         | BOther => OtherKind
         end
  end.

(** [t.Elem()] of a pointer type. *)
Definition elemOf (t : RType) : RType :=
  mkRType (pred (ptr_depth t)) (base_kind t) (base_name t).

(** [t.String()] *)
Fixpoint stars (n : nat) : string :=
  match n with O => "" | S k => "*" +:+ stars k end.

Definition typeString (t : RType) : string :=
  stars (ptr_depth t) +:+ base_name t.

(** The value stored in an [interface{}]: its dynamic type and the address
    of the object (for a pointer, the object it points to). Registered
    instances are never the nil interface. *)
Record Instance := mkInstance {
  inst_type : RType;
  inst_addr : nat
}.

#[global] Instance Instance_eq_dec : EqDecision Instance.
Proof. solve_decision. Defined.

(** ** Errors *)

Inductive Error :=
  (** an error returned by user code (a lifecycle callback) *)
  | UserError (msg : string)
  (** "component with name '%s' already registered: existing type %s, new type %s" *)
  | ErrAlreadyRegistered (name : string) (existing new : option RType)
  (** "component '%s' not found" *)
  | ErrNameNotFound (name : string)
  (** "no component of type '%s' found" *)
  | ErrTypeNotFound (t : RType)
  (** "component '%s' (type %s) is not assignable to field type %s" *)
  | ErrNotAssignable (name : string) (actual field : RType)
  (** "failed to autowire required field %s: %w" *)
  | ErrAutowireField (field : string) (cause : Error)
  (** "failed to inject dependencies for '%s': %w" *)
  | ErrInjectFailed (component : string) (cause : Error)
  (** "initialization failed for '%s': %w" *)
  | ErrInitFailed (component : string) (cause : Error)
  (** "startup failed for '%s': %w" *)
  | ErrStartFailed (component : string) (cause : Error)
  (** "shutdown failed for '%s': %w" *)
  | ErrShutdownFailed (component : string) (cause : Error)
  (** "container already started" *)
  | ErrAlreadyStarted
  (** "ambiguous components for type '%s': %v (mark one as Primary())" *)
  | ErrAmbiguous (t : RType) (names : list string)
  (** "multiple primary components for type '%s': %v" *)
  | ErrMultiplePrimary (t : RType) (names : list string)
  (** "component must be a pointer" *)
  | ErrNotPointer
  (** "instance must implement Component interface" *)
  | ErrNotComponent.

(** ** The descriptor store *)

(** [ComponentInfo] *)
Record ComponentInfo := mkInfo {
  Instance_ : Instance;
  InstanceType : option RType;
  Name : string;
  Priority : Z;
  ExportedTypes : list RType;
  IsPrimary : bool
}.

(** [Container] (without its mutex) *)
Record Container := mkContainer {
  componentsByName : gmap string ComponentInfo;
  componentsByType : gmap RType ComponentInfo;
  components : list ComponentInfo;
  started : bool
}.

#[global] Instance Error_eq_dec : EqDecision Error.
Proof. solve_decision. Defined.

#[global] Instance ComponentInfo_eq_dec : EqDecision ComponentInfo.
Proof. solve_decision. Defined.

(** [NewContainer] *)
Definition NewContainer : Container :=
  mkContainer ∅ ∅ [] false.

(** [registerComponent] *)
Definition registerComponent (c : Container) (info : ComponentInfo)
  : Container * option Error :=
  match componentsByName c !! Name info with
  | Some existing =>
      (c, Some (ErrAlreadyRegistered (Name info)
                  (InstanceType existing) (InstanceType info)))
  | None =>
      (mkContainer (<[Name info := info]> (componentsByName c))
                   (componentsByType c)
                   (components c ++ [info])
                   (started c),
       None)
  end.

(** What a fallible lookup returns: the value with a nil error, or the
    error. *)
Inductive Result (A : Type) :=
  | Ok (a : A)
  | Fail (err : Error).
Arguments Ok {A} a.
Arguments Fail {A} err.

(** [getByNameUnsafe] (and [GetByName], which only adds the lock) *)
Definition getByNameUnsafe (c : Container) (name : string) : Result Instance :=
  match componentsByName c !! name with
  | Some info => Ok (Instance_ info)
  | None => Fail (ErrNameNotFound name)
  end.

(** [getByTypeUnsafe] (and [GetByType]) *)
Definition getByTypeUnsafe (c : Container) (componentType : RType) : Result Instance :=
  match componentsByType c !! componentType with
  | Some info => Ok (Instance_ info)
  | None => Fail (ErrTypeNotFound componentType)
  end.

(** ** What is outside the package *)

(** A comparison is a strict weak order when it is asymmetric and its
    complement is transitive; [sort.Slice] asks this of [less]. *)
Definition strict_weak {A} (less : A → A → bool) : Prop :=
  (∀ x y, less x y = true → less y x = false) ∧
  (∀ x y z, less x y = false → less y z = false → less x z = false).

(** No element of the slice is [less] than one before it. *)
Definition sorted_by {A} (less : A → A → bool) (l : list A) : Prop :=
  StronglySorted (λ x y, less y x = false) l.

(** The Go runtime and standard library, as far as the package relies on
    them. [sort.Slice] is known by its contract only (it sorts, and "is
    not guaranteed to be stable"); the order in which [range] visits a map
    is not specified, so it is any enumeration of the map. *)
Class GoRuntime := {
  sort_Slice :
    (ComponentInfo → ComponentInfo → bool) → list ComponentInfo → list ComponentInfo;
  sort_Slice_perm : ∀ less l, sort_Slice less l ≡ₚ l;
  sort_Slice_sorted : ∀ less l, strict_weak less → sorted_by less (sort_Slice less l);
  map_range :
    gmap RType (list ComponentInfo) → list (RType * list ComponentInfo);
  map_range_perm : ∀ m, map_range m ≡ₚ map_to_list m
}.

(** The functions of packages [strings] and [strconv] that
    [ParseComponentTag] calls. *)
Class GoStrings := {
  strings_Split : string → string → list string;
  strings_TrimSpace : string → string;
  strconv_Atoi : string → option Z
}.

(** A declared field of a struct type, as [reflect.StructField] and
    [Value.CanSet] show it. *)
Record FieldDecl := mkField {
  fd_name : string;
  fd_type : RType;
  (** [Tag.Lookup("autowire")] *)
  fd_autowire : option string;
  (** [Tag.Get("component")] *)
  fd_component : string;
  (** exported, so that the field of an addressable struct can be set *)
  fd_exported : bool
}.

(** The program that uses the container: its type declarations, the method
    sets of its types and the behaviour of its methods. Methods act on a
    state [World] of their own and do not call back into the container. *)
Class UserCode := {
  World : Type;
  (** the fields of a struct type, in declaration order *)
  structFields : RType → list FieldDecl;
  (** the first type has the methods of the interface type *)
  implements : RType → RType → bool;
  (** [instance.(Initializable)] and its [Init] *)
  asInitializable : Instance → option (World → World * option Error);
  (** [instance.(Startable)] and its [Start] *)
  asStartable : Instance → option (World → World * option Error);
  (** [instance.(Stoppable)] and its [Stop] *)
  asStoppable : Instance → option (World → World * option Error);
  (** [instance.(Component)] and its [Name] and [Priority] *)
  asComponent : Instance → option ((World → string) * (World → Z));
  (** [instance.(interface{ SetName(string) })] *)
  asNameSetter : Instance → option (string → World → World)
}.

(** [V.AssignableTo(T)] for the named types and pointers of the model. *)
Definition AssignableTo {uc : UserCode} (V T : RType) : bool :=
  bool_decide (V = T) || (bool_decide (kindOf T = Interface) && implements V T).

(** ** The fluent builder ([boot/object_builder.go]) *)

Record ObjectBuilder := mkBuilder {
  b_instance : Instance;
  b_instanceType : RType;
  b_name : string;
  b_priority : Z;
  b_exportedTypes : list RType;
  b_nameSet : bool;
  b_prioritySet : bool;
  b_isPrimary : bool
}.

(** [newObjectBuilder] *)
Definition newObjectBuilder (instance : Instance) : ObjectBuilder :=
  let instanceType := inst_type instance in
  let defaultName :=
    if bool_decide (kindOf instanceType = Ptr)
    then typeString (elemOf instanceType)
    else typeString instanceType in
  mkBuilder instance instanceType defaultName 0 [instanceType] false false false.

(** [ObjectBuilder.Name] *)
Definition setName (name : string) (b : ObjectBuilder) : ObjectBuilder :=
  mkBuilder (b_instance b) (b_instanceType b) name (b_priority b)
            (b_exportedTypes b) true (b_prioritySet b) (b_isPrimary b).

(** [ObjectBuilder.Priority] *)
Definition setPriority (priority : Z) (b : ObjectBuilder) : ObjectBuilder :=
  mkBuilder (b_instance b) (b_instanceType b) (b_name b) priority
            (b_exportedTypes b) (b_nameSet b) true (b_isPrimary b).

(** [ObjectBuilder.Export], given the type of its argument *)
Definition Export (typePtr : RType) (b : ObjectBuilder) : ObjectBuilder :=
  let t := if bool_decide (kindOf typePtr = Ptr) then elemOf typePtr else typePtr in
  mkBuilder (b_instance b) (b_instanceType b) (b_name b) (b_priority b)
            (b_exportedTypes b ++ [t]) (b_nameSet b) (b_prioritySet b)
            (b_isPrimary b).

(** [ObjectBuilder.Primary] *)
Definition Primary (b : ObjectBuilder) : ObjectBuilder :=
  mkBuilder (b_instance b) (b_instanceType b) (b_name b) (b_priority b)
            (b_exportedTypes b) (b_nameSet b) (b_prioritySet b) true.

(** [ObjectBuilder.register], on the container the builder points to *)
Definition register (b : ObjectBuilder) (c : Container) : Container * option Error :=
  registerComponent c
    (mkInfo (b_instance b) (Some (inst_type (b_instance b))) (b_name b)
            (b_priority b) (b_exportedTypes b) (b_isPrimary b)).

(** The calls a program chains on a builder before [Run] commits it. *)
Inductive BuilderCall :=
  | CallName (name : string)
  | CallPriority (priority : Z)
  | CallExport (typePtr : RType)
  | CallPrimary.

Definition applyCall (b : ObjectBuilder) (k : BuilderCall) : ObjectBuilder :=
  match k with
  | CallName n => setName n b
  | CallPriority p => setPriority p b
  | CallExport t => Export t b
  | CallPrimary => Primary b
  end.

Definition applyCalls (b : ObjectBuilder) (ks : list BuilderCall) : ObjectBuilder :=
  foldl applyCall b ks.

(** [registerPendingBuilders]: the loop over [pendingBuilders]; the list
    is cleared only when every builder registered. *)
Fixpoint registerPendingBuilders (c : Container) (pending : list ObjectBuilder)
  : Container * list ObjectBuilder * option Error :=
  match pending with
  | [] => (c, [], None)
  | b :: rest =>
      match register b c with
      | (c', Some err) => (c', pending, Some err)
      | (c', None) =>
          match registerPendingBuilders c' rest with
          | (c'', _, Some err) => (c'', pending, Some err)
          | (c'', _, None) => (c'', [], None)
          end
      end
  end.

(** ** The annotation scanner ([AutoRegister]) *)

(** [ComponentConfig] *)
Record ComponentConfig := mkConfig {
  cfg_Name : string;
  cfg_Priority : Z
}.

Section Scanner.
Context {gs : GoStrings} {uc : UserCode}.

(** One round of the loop of [ParseComponentTag]. *)
Definition parsePart (config : ComponentConfig) (part : string) : ComponentConfig :=
  match strings_Split (strings_TrimSpace part) "=" with
  | [k; v] =>
      let key := strings_TrimSpace k in
      let value := strings_TrimSpace v in
      if bool_decide (key = "name") then mkConfig value (cfg_Priority config)
      else if bool_decide (key = "priority") then
        match strconv_Atoi value with
        | Some p => mkConfig (cfg_Name config) p
        | None => config
        end
      else config
  | _ => config
  end.

(** [ParseComponentTag] *)
Definition ParseComponentTag (tag : string) : ComponentConfig :=
  let config := mkConfig "" 100 in
  if bool_decide (tag = "") then config
  else foldl parsePart config (strings_Split tag ",").

(** The body shared by the two lookups of [AutoRegister]: parse the tag
    and, when it names the component, call [SetName]. *)
Definition applyComponentTag (instance : Instance) (tag : string) (w : World) : World :=
  let config := ParseComponentTag tag in
  if bool_decide (cfg_Name config = "") then w
  else match asNameSetter instance with
       | Some SetName => SetName (cfg_Name config) w
       | None => w
       end.

(** [AutoRegister]. [FieldByName] is looked up among the fields the
    struct declares itself. *)
Definition AutoRegister (c : Container) (w : World) (instance : Instance)
  : Container * World * option Error :=
  let t := inst_type instance in
  if negb (bool_decide (kindOf t = Ptr)) then (c, w, Some ErrNotPointer)
  else
    match asComponent instance with
    | None => (c, w, Some ErrNotComponent)
    | Some (getName, getPriority) =>
        let structType := elemOf t in
        let w2 :=
          if bool_decide (kindOf structType = Struct) then
            let w1 :=
              match filter (λ field, fd_component field ≠ "") (structFields structType) with
              | field :: _ => applyComponentTag instance (fd_component field) w
              | [] => w
              end in
            match filter (λ field, fd_name field = "ComponentMeta") (structFields structType) with
            | metaField :: _ =>
                if bool_decide (fd_component metaField = "") then w1
                else applyComponentTag instance (fd_component metaField) w1
            | [] => w1
            end
          else w in
        let info := mkInfo instance None (getName w2) (getPriority w2) [] false in
        let '(c', err) := registerComponent c info in
        (c', w2, err)
    end.
End Scanner.

(** ** The capability resolver *)

(** The loop that fills [typeGroups]: every exported type of every
    component appends the component to the group of that type. *)
Definition appendToGroup (info : ComponentInfo)
    (typeGroups : gmap RType (list ComponentInfo)) (exportedType : RType)
  : gmap RType (list ComponentInfo) :=
  <[exportedType := default [] (typeGroups !! exportedType) ++ [info]]> typeGroups.

Definition groupByExportedType (l : list ComponentInfo)
  : gmap RType (list ComponentInfo) :=
  foldl (λ typeGroups info, foldl (appendToGroup info) typeGroups (ExportedTypes info)) ∅ l.

(** Why a group has no provider to select. *)
Inductive Verdict :=
  | Selected (info : ComponentInfo)
  | Rejected (err : Error).

(** The body of the loop of [validateTypeRegistrations] for one group. *)
Definition validateGroup (exportedType : RType) (comps : list ComponentInfo) : Verdict :=
  match comps with
  | [single] => Selected single
  | _ =>
      let primaryComponents := filter (λ comp, IsPrimary comp = true) comps in
      match primaryComponents with
      | [] => Rejected (ErrAmbiguous exportedType (Name <$> comps))
      | [primary] => Selected primary
      | _ => Rejected (ErrMultiplePrimary exportedType (Name <$> primaryComponents))
      end
  end.

(** The loop over the groups, in the order [range] yields them. *)
Fixpoint validateGroups (groups : list (RType * list ComponentInfo))
    (byType : gmap RType ComponentInfo) : gmap RType ComponentInfo * option Error :=
  match groups with
  | [] => (byType, None)
  | (exportedType, comps) :: rest =>
      match validateGroup exportedType comps with
      | Rejected err => (byType, Some err)
      | Selected info => validateGroups rest (<[exportedType := info]> byType)
      end
  end.

(** [validateTypeRegistrations] *)
Definition validateTypeRegistrations {rt : GoRuntime} (c : Container)
  : Container * option Error :=
  let typeGroups := groupByExportedType (components c) in
  let '(byType, err) := validateGroups (map_range typeGroups) ∅ in
  (mkContainer (componentsByName c) byType (components c) (started c), err).

(** ** The injection engine *)

(** [len(s) > 9 && s[len(s)-9:] == ",optional"] *)
Definition hasOptionalSuffix (s : string) : bool :=
  bool_decide (9 < String.length s)%nat &&
  bool_decide (String.substring (String.length s - 9) 9 s = ",optional").

(** [s[:len(s)-9]] *)
Definition stripOptionalSuffix (s : string) : string :=
  String.substring 0 (String.length s - 9) s.

(** What one round of the loop over the fields does. *)
Inductive Flow :=
  | Continue (obj : gmap nat Instance)
  | Return (err : Error)
  | Panics.

(** How a call ends: it returns (with the state it leaves behind), or it
    panics. *)
Inductive Run (A : Type) :=
  | Returned (a : A) (err : option Error)
  | Panicked.
Arguments Returned {A} a err.
Arguments Panicked {A}.

Section Injection.
Context {uc : UserCode}.

(** [resolveDependencyUnsafe]: the dependency (which may be nil) or the
    error. *)
Definition resolveDependencyUnsafe (c : Container) (fieldType : RType)
    (qualifier : string) : Result (option Instance) :=
  if bool_decide (qualifier = "optional") || bool_decide (qualifier = "?") then
    match getByTypeUnsafe c fieldType with
    | Fail _ => Ok None
    | Ok dependency => Ok (Some dependency)
    end
  else
    let '(componentName, isOptional) :=
      if hasOptionalSuffix qualifier
      then (stripOptionalSuffix qualifier, true)
      else (qualifier, false) in
    if bool_decide (componentName = "required") || bool_decide (componentName = "") then
      match getByTypeUnsafe c fieldType with
      | Fail err => Fail err
      | Ok dependency => Ok (Some dependency)
      end
    else
      match getByNameUnsafe c componentName with
      | Fail err => if isOptional then Ok None else Fail err
      | Ok component =>
          if negb (AssignableTo (inst_type component) fieldType) then
            if isOptional then Ok None
            else Fail (ErrNotAssignable componentName (inst_type component) fieldType)
          else Ok (Some component)
      end.

(** The body of the loop of [injectComponentUnsafe] for field [i];
    [obj] maps the index of a field to the value it holds, no entry
    meaning nil. [reflect.Value.Set] panics when the value is not
    assignable to the field. *)
Definition injectField (c : Container) (i : nat) (fieldType : FieldDecl)
    (obj : gmap nat Instance) : Flow :=
  match fd_autowire fieldType with
  | Some tag =>
      if negb (fd_exported fieldType) then Continue obj
      else
        let isOptional :=
          bool_decide (tag = "optional") || bool_decide (tag = "?") ||
          hasOptionalSuffix tag in
        match resolveDependencyUnsafe c (fd_type fieldType) tag with
        | Fail err =>
            if isOptional then Continue obj
            else Return (ErrAutowireField (fd_name fieldType) err)
        | Ok (Some dependency) =>
            if AssignableTo (inst_type dependency) (fd_type fieldType)
            then Continue (<[i := dependency]> obj)
            else Panics
        | Ok None => Continue obj
        end
  | None => Continue obj
  end.

(** The loop [for i := 0; i < v.NumField(); i++]. *)
Fixpoint injectFields (c : Container) (i : nat) (fields : list FieldDecl)
    (obj : gmap nat Instance) : Run (gmap nat Instance) :=
  match fields with
  | [] => Returned obj None
  | fieldType :: rest =>
      match injectField c i fieldType obj with
      | Continue obj' => injectFields c (S i) rest obj'
      | Return err => Returned obj (Some err)
      | Panics => Panicked
      end
  end.

(** [injectComponentUnsafe]; the heap maps the address of an object to
    its fields. A nil pointer has no object: [v.Elem()] is then the zero
    [Value], on which [Type] panics, and [NumField] panics on a value
    that is not a struct. *)
Definition injectComponentUnsafe (c : Container) (heap : gmap nat (gmap nat Instance))
    (component : Instance) : Run (gmap nat (gmap nat Instance)) :=
  if negb (bool_decide (kindOf (inst_type component) = Ptr)) then Returned heap None
  else
    match heap !! inst_addr component with
    | None => Panicked
    | Some obj =>
        let t := elemOf (inst_type component) in
        if negb (bool_decide (kindOf t = Struct)) then Panicked
        else
          match injectFields c 0 (structFields t) obj with
          | Returned obj' err => Returned (<[inst_addr component := obj']> heap) err
          | Panicked => Panicked
          end
    end.

(** The loop of [InjectDependencies]. *)
Fixpoint injectAll (c : Container) (infos : list ComponentInfo)
    (heap : gmap nat (gmap nat Instance)) : Run (gmap nat (gmap nat Instance)) :=
  match infos with
  | [] => Returned heap None
  | info :: rest =>
      match injectComponentUnsafe c heap (Instance_ info) with
      | Returned heap' (Some err) =>
          Returned heap' (Some (ErrInjectFailed (Name info) err))
      | Returned heap' None => injectAll c rest heap'
      | Panicked => Panicked
      end
  end.

(** [InjectDependencies] *)
Definition InjectDependencies (c : Container) (heap : gmap nat (gmap nat Instance))
  : Run (gmap nat (gmap nat Instance)) :=
  injectAll c (components c) heap.
End Injection.

(** ** The lifecycle orchestrator *)

Section Lifecycle.
Context {rt : GoRuntime} {uc : UserCode}.

(** The [less] closure of [getSortedComponents]. *)
Definition lessByPriority (ascending : bool) (a b : ComponentInfo) : bool :=
  if ascending then Priority a <? Priority b else Priority a >? Priority b.

(** [getSortedComponents]: a copy of [c.components], sorted. *)
Definition getSortedComponents (c : Container) (ascending : bool) : list ComponentInfo :=
  sort_Slice (lessByPriority ascending) (components c).

(** What a phase leaves behind: the state of the user code, the
    callbacks that were invoked (the component and what its callback
    returned, in the order of the calls), and the error returned. *)
Record Phase := mkPhase {
  ph_world : World;
  ph_calls : list (ComponentInfo * option Error);
  ph_err : option Error
}.

(** The loops of [Initialize] and of [Start] have one shape: probe the
    instance for the interface of the phase, invoke the callback, and
    return its error, wrapped, as soon as there is one. *)
Fixpoint abortingLoop (probe : Instance → option (World → World * option Error))
    (wrap : string → Error → Error) (l : list ComponentInfo) (w : World) : Phase :=
  match l with
  | [] => mkPhase w [] None
  | info :: rest =>
      match probe (Instance_ info) with
      | Some callback =>
          match callback w with
          | (w', Some err) =>
              mkPhase w' [(info, Some err)] (Some (wrap (Name info) err))
          | (w', None) =>
              let r := abortingLoop probe wrap rest w' in
              mkPhase (ph_world r) ((info, None) :: ph_calls r) (ph_err r)
          end
      | None => abortingLoop probe wrap rest w
      end
  end.

(** [Initialize] *)
Definition Initialize (c : Container) (w : World) : Container * Phase :=
  (c, abortingLoop asInitializable ErrInitFailed (getSortedComponents c false) w).

(** [Start] *)
Definition Start (c : Container) (w : World) : Container * Phase :=
  if started c then (c, mkPhase w [] (Some ErrAlreadyStarted))
  else
    let r := abortingLoop asStartable ErrStartFailed (getSortedComponents c false) w in
    match ph_err r with
    | Some _ => (c, r)
    | None =>
        (mkContainer (componentsByName c) (componentsByType c) (components c) true, r)
    end.

(** The loop of [Stop]: an error replaces [lastErr], and the loop goes
    on. *)
Fixpoint stopLoop (l : list ComponentInfo) (w : World) (lastErr : option Error) : Phase :=
  match l with
  | [] => mkPhase w [] lastErr
  | info :: rest =>
      match asStoppable (Instance_ info) with
      | Some callback =>
          let '(w', res) := callback w in
          let lastErr' :=
            match res with
            | Some err => Some (ErrShutdownFailed (Name info) err)
            | None => lastErr
            end in
          let r := stopLoop rest w' lastErr' in
          mkPhase (ph_world r) ((info, res) :: ph_calls r) (ph_err r)
      | None => stopLoop rest w lastErr
      end
  end.

(** [Stop] *)
Definition Stop (c : Container) (w : World) : Container * Phase :=
  if negb (started c) then (c, mkPhase w [] None)
  else
    let r := stopLoop (getSortedComponents c true) w None in
    (mkContainer (componentsByName c) (componentsByType c) (components c) false, r).
End Lifecycle.

(** ** One Go runtime: insertion sort and the order of the keys *)

(** [insertionSort_func] of package [sort], which [sort.Slice] runs on a
    slice of at most twelve elements: element [i] moves left while it is
    [less] than its left neighbour. [before] is the part of the slice
    left of the element, nearest neighbour first. *)
Fixpoint moveLeft {A} (less : A → A → bool) (x : A) (before : list A) : list A :=
  match before with
  | [] => [x]
  | y :: before' => if less x y then y :: moveLeft less x before' else x :: before
  end.

Definition insertionSort {A} (less : A → A → bool) (l : list A) : list A :=
  reverse (foldl (λ before x, moveLeft less x before) [] l).

(** * The vocabulary of the properties *)

(** The chain of an error: the error, what it wraps, and so on
    ([errors.Unwrap]). *)
Fixpoint errorChain (e : Error) : list Error :=
  e :: match e with
       | ErrAutowireField _ cause
       | ErrInjectFailed _ cause
       | ErrInitFailed _ cause
       | ErrStartFailed _ cause
       | ErrShutdownFailed _ cause => errorChain cause
       | _ => []
       end.

(** The calls of a log that returned an error. *)
Definition failures (calls : list (ComponentInfo * option Error))
  : list (ComponentInfo * Error) :=
  omap (λ call, match call.2 with Some err => Some (call.1, err) | None => None end) calls.

(** The store and its index agree: a name is indexed exactly when a
    component of the ordered collection bears it, and it leads to that
    component. *)
Definition store_consistent (c : Container) : Prop :=
  ∀ name info,
    componentsByName c !! name = Some info ↔ info ∈ components c ∧ Name info = name.

(** Every descriptor of the store exports the type of its instance. *)
Definition exports_own_type (c : Container) : Prop :=
  ∀ info, info ∈ components c → inst_type (Instance_ info) ∈ ExportedTypes info.

(** The components that export a type, in registration order, once for
    every time the type occurs among their exported types. *)
Definition exportersOf (t : RType) (l : list ComponentInfo) : list ComponentInfo :=
  l ≫= (λ info, (λ _, info) <$> filter (λ t', t' = t) (ExportedTypes info)).

(** The primaries of a group. *)
Definition primariesOf (comps : list ComponentInfo) : list ComponentInfo :=
  filter (λ comp, IsPrimary comp = true) comps.

(** The descriptors that export a type, in registration order. *)
Definition exporting (t : RType) (l : list ComponentInfo) : list ComponentInfo :=
  filter (λ info, t ∈ ExportedTypes info) l.

(** How a directive asks for the dependency of a field. *)
Inductive How :=
  | ByCapability
  | ByName (name : string).

Record Directive := mkDirective {
  how : How;
  optional : bool
}.

(** What is decided for a field: a dependency to set it to, nothing (the
    field is left as it is), or a fatal error. *)
Inductive Decision :=
  | Bind (dependency : Instance)
  | Skip
  | Fatal (err : Error).

(** [s] ends in [suffix]. *)
Definition endsWith (suffix s : string) : bool :=
  bool_decide (String.length suffix ≤ String.length s)%nat &&
  bool_decide (String.substring (String.length s - String.length suffix)
                 (String.length suffix) s = suffix).

(** The directive of a tag, read off the grammar with its precedence:
    the pure-optional markers, then the suffix, then [required] and the
    empty string, then a name. *)
Definition grammarDirective (tag : string) : Directive :=
  if bool_decide (tag = "optional" ∨ tag = "?") then mkDirective ByCapability true
  else if endsWith ",optional" tag then
    mkDirective (ByName (String.substring 0 (String.length tag - 9) tag)) true
  else if bool_decide (tag = "required" ∨ tag = "") then mkDirective ByCapability false
  else mkDirective (ByName tag) false.

(** The directive of a tag as the code parses it: the suffix counts only
    on a tag longer than the suffix, and what is left of the suffix is
    read again ([required] asks for the capability of the field). *)
Definition parsedDirective (tag : string) : Directive :=
  if bool_decide (tag = "optional" ∨ tag = "?") then mkDirective ByCapability true
  else if bool_decide (9 < String.length tag)%nat && endsWith ",optional" tag then
    let name := String.substring 0 (String.length tag - 9) tag in
    if bool_decide (name = "required") then mkDirective ByCapability true
    else mkDirective (ByName name) true
  else if bool_decide (tag = "required" ∨ tag = "") then mkDirective ByCapability false
  else mkDirective (ByName tag) false.

Section Vocabulary.
Context {rt : GoRuntime} {uc : UserCode}.

(** The components on which a probe succeeds. *)
Definition exposes (probe : Instance → option (World → World * option Error))
    (l : list ComponentInfo) : list ComponentInfo :=
  filter (λ info, is_Some (probe (Instance_ info))) l.

(** What [injectComponentUnsafe] decides for a settable field, from its
    own reading of the tag and from what [resolveDependencyUnsafe]
    returns. *)
Definition fieldDecision (c : Container) (fieldType : RType) (tag : string) : Decision :=
  let isOptional :=
    bool_decide (tag = "optional") || bool_decide (tag = "?") ||
    hasOptionalSuffix tag in
  match resolveDependencyUnsafe c fieldType tag with
  | Fail err => if isOptional then Skip else Fatal err
  | Ok (Some dependency) => Bind dependency
  | Ok None => Skip
  end.

(** Resolution by capability, or by name with the check of the type. *)
Definition resolveHow (c : Container) (fieldType : RType) (h : How) : Result Instance :=
  match h with
  | ByCapability => getByTypeUnsafe c fieldType
  | ByName name =>
      match getByNameUnsafe c name with
      | Fail err => Fail err
      | Ok component =>
          if AssignableTo (inst_type component) fieldType then Ok component
          else Fail (ErrNotAssignable name (inst_type component) fieldType)
      end
  end.

(** A directive applied: a failure is swallowed when the directive is
    optional and fatal otherwise. *)
Definition resolveBy (c : Container) (fieldType : RType) (d : Directive) : Decision :=
  match resolveHow c fieldType (how d) with
  | Ok dependency => Bind dependency
  | Fail err => if optional d then Skip else Fatal err
  end.

(** The value [new] of a field after a round that found [old] in it:
    the resolved dependency, which is assignable to the field, or the
    old value when the failure of an optional directive was swallowed or
    the field is skipped. *)
Definition slot_after (c : Container) (fd : FieldDecl) (old new : option Instance) : Prop :=
  match fd_autowire fd with
  | Some tag =>
      if fd_exported fd then
        match resolveBy c (fd_type fd) (parsedDirective tag) with
        | Bind dependency =>
            new = Some dependency ∧
            AssignableTo (inst_type dependency) (fd_type fd) = true
        | Skip => new = old
        | Fatal _ => False
        end
      else new = old
  | None => new = old
  end.

End Vocabulary.

(** ** What the specification says, where the code says otherwise *)

(** The specification of [Stop]: every component that fails is in the
    error returned. *)
Definition Stop_reports_every_failure {rt : GoRuntime} {uc : UserCode}
    (c : Container) (w : World) : Prop :=
  (ph_calls (Stop c w).2).*1 = exposes asStoppable (getSortedComponents c true) ∧
  ∀ info err, (info, Some err) ∈ ph_calls (Stop c w).2 →
    ∃ e, ph_err (Stop c w).2 = Some e ∧
         ErrShutdownFailed (Name info) err ∈ errorChain e.

(** The specification of the order: [Initialize] and [Start] follow the
    stable sort by descending priority, and [Stop] follows its reverse. *)
Definition order_as_specified {rt : GoRuntime} (c : Container) : Prop :=
  getSortedComponents c false ≡ₚ components c ∧
  StronglySorted (λ a b, Priority b ≤ Priority a) (getSortedComponents c false) ∧
  (∀ p, filter (λ a, Priority a = p) (getSortedComponents c false) =
        filter (λ a, Priority a = p) (components c)) ∧
  getSortedComponents c true = reverse (getSortedComponents c false).

(** The specification of the resolver, capability by capability. *)
Definition resolution_as_specified {rt : GoRuntime} (c : Container) : Prop :=
  let r := validateTypeRegistrations c in
  ∀ t,
    (∀ p, exporting t (components c) = [p] → componentsByType r.1 !! t = Some p) ∧
    ((2 ≤ length (exporting t (components c)))%nat →
     (∀ p, primariesOf (exporting t (components c)) = [p] →
        componentsByType r.1 !! t = Some p) ∧
     (primariesOf (exporting t (components c)) = [] →
        r.2 = Some (ErrAmbiguous t (Name <$> exporting t (components c)))) ∧
     ((2 ≤ length (primariesOf (exporting t (components c))))%nat →
        r.2 = Some (ErrMultiplePrimary t
                      (Name <$> primariesOf (exporting t (components c)))))).



(** * Properties *)

(** ** The descriptor store *)

Lemma store_consistent_new : store_consistent NewContainer.
Proof.
  intros name info. simpl. rewrite lookup_empty, elem_of_nil. split; [done|tauto].
Qed.

Lemma registerComponent_indexed (c : Container) (info existing : ComponentInfo) :
  componentsByName c !! Name info = Some existing →
  registerComponent c info =
    (c, Some (ErrAlreadyRegistered (Name info) (InstanceType existing) (InstanceType info))).
Proof. intros Hex. unfold registerComponent. by rewrite Hex. Qed.

Lemma registerComponent_fresh (c : Container) (info : ComponentInfo) :
  componentsByName c !! Name info = None →
  registerComponent c info =
    (mkContainer (<[Name info := info]> (componentsByName c)) (componentsByType c)
                 (components c ++ [info]) (started c), None).
Proof. intros Hex. unfold registerComponent. by rewrite Hex. Qed.

Lemma registerComponent_consistent (c : Container) (info : ComponentInfo) :
  store_consistent c → store_consistent (registerComponent c info).1.
Proof.
  intros Hc. unfold registerComponent.
  destruct (componentsByName c !! Name info) as [ex|] eqn:Hex; simpl; [done|].
  intros name i. simpl. rewrite elem_of_app, list_elem_of_singleton.
  destruct (decide (Name info = name)) as [<-|Hne].
  - rewrite lookup_insert_eq. split.
    + intros [= <-]. auto.
    + intros [[Hin | ->] Hn]; [|done].
      assert (componentsByName c !! Name info = Some i) as Hi by (by apply Hc).
      congruence.
  - rewrite lookup_insert_ne by done. rewrite (Hc name i).
    split; [intros [??]; auto | intros [[?| ->] ?]; [auto | done]].
Qed.

(** C7. Registering a descriptor whose name is the name of a descriptor
    already in the store returns the duplicate-name error and the store as
    it was: the collection, the index and the earlier descriptor are
    untouched. *)
Theorem registerComponent_duplicate (c : Container) (info first : ComponentInfo) :
  store_consistent c →
  first ∈ components c →
  Name first = Name info →
  registerComponent c info =
    (c, Some (ErrAlreadyRegistered (Name info) (InstanceType first) (InstanceType info)))
  ∧ components (registerComponent c info).1 = components c
  ∧ componentsByName (registerComponent c info).1 !! Name first = Some first.
Proof.
  intros Hc Hin Hname.
  assert (componentsByName c !! Name info = Some first) as Hidx by (by apply Hc).
  rewrite (registerComponent_indexed c info first Hidx). simpl.
  split_and!; [done..|]. by rewrite Hname.
Qed.

(** ** The lifecycle orchestrator: the started flag *)

Section LifecycleFacts.
Context {rt : GoRuntime} {uc : UserCode}.

Lemma Stop_not_started (c : Container) (w : World) :
  started c = false → Stop c w = (c, mkPhase w [] None).
Proof. intros Hs. unfold Stop. by rewrite Hs. Qed.

Lemma Start_already_started (c : Container) (w : World) :
  started c = true → Start c w = (c, mkPhase w [] (Some ErrAlreadyStarted)).
Proof. intros Hs. unfold Start. by rewrite Hs. Qed.

Lemma Start_runs_loop (c : Container) (w : World) :
  started c = false →
  (Start c w).2 = abortingLoop asStartable ErrStartFailed (getSortedComponents c false) w.
Proof.
  intros Hs. unfold Start. rewrite Hs.
  by destruct (ph_err (abortingLoop _ _ _ _)).
Qed.


Lemma Start_failure (c c' : Container) (w : World) (r : Phase) :
  Start c w = (c', r) → is_Some (ph_err r) → c' = c.
Proof.
  unfold Start. destruct (started c) eqn:Hs.
  - by intros [= <- <-].
  - destruct (ph_err (abortingLoop _ _ _ _)) eqn:He.
    + by intros [= <- <-].
    + intros [= <- <-] [e He']. congruence.
Qed.


(** C10. When [Start] returns the error of a failing callback, the
    container is left exactly as it was, not started: a [Stop] that
    follows invokes no callback (so the components started by the failed
    attempt are not stopped), and a [Start] that follows is not refused:
    it runs the loop over the whole sorted collection again. *)
Theorem Start_failed_partway (c c' : Container) (w : World) (r : Phase)
    (name : string) (cause : Error) :
  Start c w = (c', r) →
  ph_err r = Some (ErrStartFailed name cause) →
  c' = c ∧ started c' = false ∧
  (∀ w', Stop c' w' = (c', mkPhase w' [] None)) ∧
  (∀ w', (Start c' w').2 =
           abortingLoop asStartable ErrStartFailed (getSortedComponents c' false) w').
Proof.
  intros Hst Herr.
  assert (c' = c) as -> by (eapply Start_failure; eauto).
  assert (started c = false) as Hs.
  { destruct (started c) eqn:Hs; [|done].
    rewrite (Start_already_started c w Hs) in Hst.
    injection Hst as <-. simpl in Herr. congruence. }
  split_and!; [done..| |].
  - intros w'. by apply Stop_not_started.
  - intros w'. by apply Start_runs_loop.
Qed.
End LifecycleFacts.

(** ** The lifecycle orchestrator: the loops *)

Section Loops.
Context {rt : GoRuntime} {uc : UserCode}.

Lemma exposes_cons_Some probe info rest cb :
  probe (Instance_ info) = Some cb →
  exposes probe (info :: rest) = info :: exposes probe rest.
Proof. intros Hp. unfold exposes. rewrite filter_cons_True; [done|]. by rewrite Hp. Qed.

Lemma exposes_cons_None probe info rest :
  probe (Instance_ info) = None →
  exposes probe (info :: rest) = exposes probe rest.
Proof.
  intros Hp. unfold exposes. rewrite filter_cons_False; [done|].
  rewrite Hp. by intros [? ?].
Qed.

(** A callback that returns an error is the last one the loop invokes:
    the callbacks before it succeeded, the components after it in the list
    are not visited, and the error of the loop wraps its error under its
    name. *)
Lemma abortingLoop_failure probe wrap l (w : World) info cause :
  (info, Some cause) ∈ ph_calls (abortingLoop probe wrap l w) →
  ∃ pre post,
    l = pre ++ info :: post ∧
    ph_calls (abortingLoop probe wrap l w) =
      ((λ i, (i, None)) <$> exposes probe pre) ++ [(info, Some cause)] ∧
    ph_err (abortingLoop probe wrap l w) = Some (wrap (Name info) cause).
Proof.
  revert w. induction l as [|x rest IH]; intros w; simpl.
  { by intros ?%elem_of_nil. }
  destruct (probe (Instance_ x)) as [cb|] eqn:Hp.
  - destruct (cb w) as [w' [err|]]; simpl.
    + intros Hin%list_elem_of_singleton. injection Hin as -> ->.
      exists [], rest. by split_and!.
    + intros Hin%elem_of_cons. destruct Hin as [Hin|Hin]; [done|].
      destruct (IH _ Hin) as (pre & post & -> & Hcalls & Herr).
      exists (x :: pre), post. split_and!; [done| |done].
      rewrite (exposes_cons_Some _ _ _ _ Hp). simpl. by rewrite Hcalls.
  - intros Hin. destruct (IH _ Hin) as (pre & post & -> & Hcalls & Herr).
    exists (x :: pre), post. split_and!; [done| |done].
    by rewrite (exposes_cons_None _ _ _ Hp).
Qed.

(** The loop of [Stop] invokes the callback of every component that has
    one, whatever the callbacks return; its error is the wrapped error of
    the last callback that failed, or [lastErr] when none did. *)
Lemma stopLoop_spec l (w : World) lastErr :
  (ph_calls (stopLoop l w lastErr)).*1 = exposes asStoppable l ∧
  ph_err (stopLoop l w lastErr) =
    match last (failures (ph_calls (stopLoop l w lastErr))) with
    | Some (info, err) => Some (ErrShutdownFailed (Name info) err)
    | None => lastErr
    end.
Proof.
  revert w lastErr. induction l as [|x rest IH]; intros w lastErr; simpl; [done|].
  destruct (asStoppable (Instance_ x)) as [cb|] eqn:Hp.
  - destruct (cb w) as [w' res]. simpl.
    rewrite (exposes_cons_Some _ _ _ _ Hp).
    match goal with |- context [stopLoop rest w' ?le] =>
      destruct (IH w' le) as [Hcalls Herr] end.
    split; [f_equal; exact Hcalls|].
    etrans; [exact Herr|]. unfold failures.
    destruct res as [err|]; simpl; [|done].
    rewrite last_cons.
    by destruct (last _) as [[??]|].
  - rewrite (exposes_cons_None _ _ _ Hp). apply IH.
Qed.

(** C6. When a callback of [Initialize] or of [Start] returns an error,
    the phase returns at once the error that wraps it under the name of
    the component: the log of the phase ends with this call, the calls
    before it are the successful calls of the components sorted before
    it, and no component sorted after it is visited. *)
Theorem phase_aborts_on_failure (c : Container) (w : World)
    (info : ComponentInfo) (cause : Error) :
  ((info, Some cause) ∈ ph_calls (Initialize c w).2 →
   ∃ pre post,
     getSortedComponents c false = pre ++ info :: post ∧
     ph_calls (Initialize c w).2 =
       ((λ i, (i, None)) <$> exposes asInitializable pre) ++ [(info, Some cause)] ∧
     ph_err (Initialize c w).2 = Some (ErrInitFailed (Name info) cause)) ∧
  ((info, Some cause) ∈ ph_calls (Start c w).2 →
   ∃ pre post,
     getSortedComponents c false = pre ++ info :: post ∧
     ph_calls (Start c w).2 =
       ((λ i, (i, None)) <$> exposes asStartable pre) ++ [(info, Some cause)] ∧
     ph_err (Start c w).2 = Some (ErrStartFailed (Name info) cause) ∧
     started (Start c w).1 = false).
Proof.
  split.
  - unfold Initialize. simpl. apply abortingLoop_failure.
  - destruct (started c) eqn:Hs.
    { rewrite (Start_already_started c w Hs). simpl. by intros ?%elem_of_nil. }
    rewrite (Start_runs_loop c w Hs). intros Hin.
    destruct (abortingLoop_failure _ _ _ _ _ _ Hin) as (pre & post & Hl & Hcalls & Herr).
    exists pre, post. split_and!; [done..|].
    unfold Start. rewrite Hs, Herr. done.
Qed.

(** C3, as the code has it. On a started container [Stop] invokes the
    callback of every component that has one, in ascending order of
    priority, whether or not earlier callbacks failed, and leaves the
    container not started. The error it returns is the failure of the
    last callback that failed, wrapped under the name of its component
    (nil when none failed): failures before the last one are not in
    it. *)
Theorem Stop_visits_all_keeps_last (c : Container) (w : World) :
  started c = true →
  (ph_calls (Stop c w).2).*1 = exposes asStoppable (getSortedComponents c true) ∧
  ph_err (Stop c w).2 =
    match last (failures (ph_calls (Stop c w).2)) with
    | Some (info, err) => Some (ErrShutdownFailed (Name info) err)
    | None => None
    end ∧
  started (Stop c w).1 = false.
Proof.
  intros Hs. unfold Stop. rewrite Hs. simpl.
  destruct (stopLoop_spec (getSortedComponents c true) w None) as [Hcalls Herr].
  by split_and!.
Qed.
End Loops.

(** ** Sorting *)

Lemma StronglySorted_reverse {A} (R : relation A) (l : list A) :
  StronglySorted R l → StronglySorted (flip R) (reverse l).
Proof.
  induction 1 as [|x l Hl IH Hx]; [constructor|].
  rewrite reverse_cons. apply StronglySorted_app_2; [|done|repeat constructor].
  intros x1 x2 Hx1 ->%list_elem_of_singleton.
  rewrite elem_of_reverse in Hx1.
  rewrite Forall_forall in Hx. unfold flip. by apply Hx.
Qed.

Lemma lessByPriority_strict_weak (ascending : bool) :
  strict_weak (lessByPriority ascending).
Proof.
  unfold strict_weak, lessByPriority.
  destruct ascending; split; intros *; rewrite ?Z.gtb_ltb, ?Z.ltb_lt, ?Z.ltb_ge; lia.
Qed.

Lemma sorted_by_descending (l : list ComponentInfo) :
  sorted_by (lessByPriority false) l ↔
  StronglySorted (λ a b, Priority b ≤ Priority a) l.
Proof.
  unfold sorted_by, lessByPriority.
  split; induction 1 as [|x l' Hl IH Hx]; constructor; try done;
    eapply Forall_impl; try exact Hx; simpl; intros y;
    rewrite Z.gtb_ltb, Z.ltb_ge; done.
Qed.

Lemma sorted_by_ascending (l : list ComponentInfo) :
  sorted_by (lessByPriority true) l ↔
  StronglySorted (λ a b, Priority a ≤ Priority b) l.
Proof.
  unfold sorted_by, lessByPriority.
  split; induction 1 as [|x l' Hl IH Hx]; constructor; try done;
    eapply Forall_impl; try exact Hx; simpl; intros y;
    rewrite Z.ltb_ge; done.
Qed.

Section InsertionSort.
Context {A : Type} (less : A → A → bool).

Lemma moveLeft_perm (x : A) (before : list A) :
  moveLeft less x before ≡ₚ x :: before.
Proof.
  induction before as [|y before' IH]; simpl; [done|].
  destruct (less x y); [|done].
  rewrite IH. apply Permutation_swap.
Qed.

Lemma insertion_fold_perm (l acc : list A) :
  foldl (λ before x, moveLeft less x before) acc l ≡ₚ l ++ acc.
Proof.
  revert acc. induction l as [|x l IH]; intros acc; simpl; [done|].
  rewrite IH, moveLeft_perm. by rewrite Permutation_middle.
Qed.

Lemma insertionSort_perm (l : list A) : insertionSort less l ≡ₚ l.
Proof.
  unfold insertionSort. rewrite reverse_Permutation, insertion_fold_perm.
  by rewrite app_nil_r.
Qed.

Hypothesis less_strict_weak : strict_weak less.

Lemma moveLeft_sorted (x : A) (before : list A) :
  StronglySorted (λ a b, less a b = false) before →
  StronglySorted (λ a b, less a b = false) (moveLeft less x before).
Proof.
  destruct less_strict_weak as [Hasym Hneg].
  induction 1 as [|y before' Hs IH Hy]; simpl; [repeat constructor|].
  destruct (less x y) eqn:Hxy.
  - constructor; [done|].
    rewrite (moveLeft_perm x before'). constructor; [by apply Hasym|done].
  - constructor; [by constructor|].
    constructor; [done|].
    eapply Forall_impl; [exact Hy|]. simpl. intros z Hyz. by eapply Hneg.
Qed.

Lemma insertion_fold_sorted (l acc : list A) :
  StronglySorted (λ a b, less a b = false) acc →
  StronglySorted (λ a b, less a b = false)
    (foldl (λ before x, moveLeft less x before) acc l).
Proof.
  revert acc. induction l as [|x l IH]; intros acc Hacc; simpl; [done|].
  by apply IH, moveLeft_sorted.
Qed.

Lemma insertionSort_sorted (l : list A) : sorted_by less (insertionSort less l).
Proof.
  unfold sorted_by, insertionSort.
  apply (StronglySorted_reverse (λ a b, less a b = false)).
  apply insertion_fold_sorted. constructor.
Qed.
End InsertionSort.

(** Insertion sort is stable: elements with the same key keep the order
    they had, provided [less] holds between different keys only. *)
Section InsertionSortStable.
Context {A : Type} (less : A → A → bool) (key : A → Z).
Hypothesis less_key : ∀ x y, less x y = true → key x ≠ key y.

Lemma moveLeft_filter (p : Z) (x : A) (before : list A) :
  filter (λ a, key a = p) (moveLeft less x before) =
  filter (λ a, key a = p) (x :: before).
Proof.
  induction before as [|y before' IH]; simpl; [done|].
  destruct (less x y) eqn:Hxy; [|done].
  apply less_key in Hxy.
  rewrite (filter_cons _ y), IH, !(filter_cons _ x), (filter_cons _ y).
  destruct (decide (key y = p)), (decide (key x = p)); try done. congruence.
Qed.

Lemma insertion_fold_filter (p : Z) (l acc : list A) :
  filter (λ a, key a = p) (foldl (λ before x, moveLeft less x before) acc l) =
  reverse (filter (λ a, key a = p) l) ++ filter (λ a, key a = p) acc.
Proof.
  revert acc. induction l as [|x l IH]; intros acc; simpl; [done|].
  rewrite IH, moveLeft_filter, !(filter_cons _ x).
  destruct (decide (key x = p)); [|done].
  by rewrite reverse_cons, <-app_assoc.
Qed.

Lemma insertionSort_stable (p : Z) (l : list A) :
  filter (λ a, key a = p) (insertionSort less l) = filter (λ a, key a = p) l.
Proof.
  unfold insertionSort.
  by rewrite filter_reverse, insertion_fold_filter, app_nil_r, reverse_involutive.
Qed.
End InsertionSortStable.

Lemma lessByPriority_key (ascending : bool) (x y : ComponentInfo) :
  lessByPriority ascending x y = true → Priority x ≠ Priority y.
Proof.
  unfold lessByPriority. destruct ascending; rewrite ?Z.gtb_ltb, Z.ltb_lt; lia.
Qed.

(** The runtime on slices of at most twelve elements, with [range]
    visiting the keys in the order of the map's own enumeration. *)
Definition smallSliceRuntime : GoRuntime := {|
  sort_Slice := insertionSort;
  sort_Slice_perm := insertionSort_perm;
  sort_Slice_sorted := λ less l Hless, insertionSort_sorted less Hless l;
  map_range := map_to_list;
  map_range_perm := λ m, reflexivity (map_to_list m)
|}.

Section Order.
Context {rt : GoRuntime}.

Lemma getSortedComponents_perm (c : Container) (ascending : bool) :
  getSortedComponents c ascending ≡ₚ components c.
Proof. apply sort_Slice_perm. Qed.

Lemma getSortedComponents_sorted (c : Container) (ascending : bool) :
  sorted_by (lessByPriority ascending) (getSortedComponents c ascending).
Proof. apply sort_Slice_sorted, lessByPriority_strict_weak. Qed.

(** C4, as the code has it. The list that [Initialize] and [Start]
    traverse is a permutation of the registered components in which
    priorities never increase; the list that [Stop] traverses is a
    permutation in which they never decrease; the two are sorted
    separately. When no two registered components have the same priority,
    the second list is the reverse of the first. Among components of equal
    priority the order is the one [sort.Slice] yields: under insertion
    sort both lists keep them in registration order, so that on a tie the
    second list is not the reverse of the first. *)
Theorem lifecycle_order (c : Container) :
  getSortedComponents c false ≡ₚ components c ∧
  StronglySorted (λ a b, Priority b ≤ Priority a) (getSortedComponents c false) ∧
  getSortedComponents c true ≡ₚ components c ∧
  StronglySorted (λ a b, Priority a ≤ Priority b) (getSortedComponents c true) ∧
  ((∀ a b, a ∈ components c → b ∈ components c → Priority a = Priority b → a = b) →
   getSortedComponents c true = reverse (getSortedComponents c false)) ∧
  (∀ ascending p,
     filter (λ a, Priority a = p)
       (getSortedComponents (rt := smallSliceRuntime) c ascending) =
     filter (λ a, Priority a = p) (components c)).
Proof.
  pose proof (getSortedComponents_perm c false) as Hpd.
  pose proof (getSortedComponents_perm c true) as Hpa.
  pose proof (proj1 (sorted_by_descending _) (getSortedComponents_sorted c false)) as Hsd.
  pose proof (proj1 (sorted_by_ascending _) (getSortedComponents_sorted c true)) as Hsa.
  split_and!; [done..| |].
  - intros Hdistinct.
    apply (StronglySorted_unique_strong (λ a b, Priority a ≤ Priority b)); [|done| |].
    + intros x1 x2 Hx1 Hx2 H12 H21. apply Hdistinct; [| |lia].
      * by rewrite <-Hpa.
      * rewrite <-Hpd. by apply elem_of_reverse.
    + apply (StronglySorted_reverse (λ a b, Priority b ≤ Priority a)), Hsd.
    + by rewrite reverse_Permutation, Hpa, Hpd.
  - intros ascending p. unfold getSortedComponents. simpl.
    apply insertionSort_stable, lessByPriority_key.
Qed.
End Order.

(** ** The capability resolver *)

Lemma appendToGroup_fold (info : ComponentInfo) (ts : list RType)
    (g : gmap RType (list ComponentInfo)) (t : RType) :
  default [] (foldl (appendToGroup info) g ts !! t) =
  default [] (g !! t) ++ ((λ _, info) <$> filter (λ t', t' = t) ts).
Proof.
  revert g. induction ts as [|t0 ts IH]; intros g; simpl.
  { by rewrite app_nil_r. }
  rewrite IH. unfold appendToGroup.
  destruct (decide (t0 = t)) as [->|Hne].
  - rewrite lookup_insert_eq, filter_cons_True by done. simpl.
    by rewrite <-app_assoc.
  - by rewrite lookup_insert_ne, filter_cons_False.
Qed.

Lemma appendToGroup_fold_nonempty (info : ComponentInfo) (ts : list RType)
    (g : gmap RType (list ComponentInfo)) :
  (∀ t, g !! t ≠ Some []) → ∀ t, foldl (appendToGroup info) g ts !! t ≠ Some [].
Proof.
  revert g. induction ts as [|t0 ts IH]; intros g Hg; simpl; [done|].
  apply IH. intros t. unfold appendToGroup.
  destruct (decide (t0 = t)) as [->|Hne].
  - rewrite lookup_insert_eq. intros [= Heq]. by destruct (default [] (g !! t)).
  - by rewrite lookup_insert_ne.
Qed.

Lemma group_fold (l : list ComponentInfo) (g : gmap RType (list ComponentInfo)) (t : RType) :
  default []
    (foldl (λ typeGroups info, foldl (appendToGroup info) typeGroups (ExportedTypes info))
       g l !! t) =
  default [] (g !! t) ++ exportersOf t l.
Proof.
  revert g. induction l as [|info l IH]; intros g; simpl.
  { by rewrite app_nil_r. }
  rewrite IH, appendToGroup_fold. unfold exportersOf. simpl.
  by rewrite <-app_assoc.
Qed.

Lemma group_fold_nonempty (l : list ComponentInfo) (g : gmap RType (list ComponentInfo)) :
  (∀ t, g !! t ≠ Some []) →
  ∀ t, foldl (λ typeGroups info, foldl (appendToGroup info) typeGroups (ExportedTypes info))
         g l !! t ≠ Some [].
Proof.
  revert g. induction l as [|info l IH]; intros g Hg; simpl; [done|].
  by apply IH, appendToGroup_fold_nonempty.
Qed.

(** The group of a type is the list of its exporters; a type nobody
    exports has no group. *)
Lemma groupByExportedType_lookup (l : list ComponentInfo) (t : RType) (comps : list ComponentInfo) :
  groupByExportedType l !! t = Some comps ↔ comps = exportersOf t l ∧ comps ≠ [].
Proof.
  pose proof (group_fold l ∅ t) as Hd.
  pose proof (group_fold_nonempty l ∅) as Hne.
  rewrite lookup_empty in Hd. simpl in Hd. fold (groupByExportedType l) in Hd, Hne.
  specialize (Hne ltac:(intros t'; by rewrite lookup_empty) t).
  destruct (groupByExportedType l !! t) as [g|] eqn:Hg; simpl in Hd.
  - split.
    + intros [= <-]. split; [done|]. by intros ->.
    + intros [-> _]. by rewrite Hd.
  - split; [done|]. intros [-> Hn]. by rewrite <-Hd in Hn.
Qed.

(** What the body of the loop decides, in terms of the group. *)
Lemma validateGroup_Selected (t : RType) (comps : list ComponentInfo) (info : ComponentInfo) :
  validateGroup t comps = Selected info ↔
  comps = [info] ∨ (length comps ≠ 1%nat ∧ primariesOf comps = [info]).
Proof.
  unfold validateGroup. fold (primariesOf comps).
  destruct comps as [|a [|b rest]].
  - simpl. split; [done|]. intros [?|[_ ?]]; done.
  - split.
    + intros [= ->]. by left.
    + intros [[= ->]|[Hl _]]; [done|]. by simpl in Hl.
  - destruct (primariesOf (a :: b :: rest)) as [|p [|q ps]] eqn:Hp.
    + split; [done|]. intros [?|[_ ?]]; done.
    + split.
      * intros [= ->]. right. done.
      * intros [?|[_ [= ->]]]; done.
    + split; [done|]. intros [?|[_ ?]]; done.
Qed.

Lemma validateGroup_Rejected (t : RType) (comps : list ComponentInfo) (e : Error) :
  validateGroup t comps = Rejected e ↔
  length comps ≠ 1%nat ∧
  ((primariesOf comps = [] ∧ e = ErrAmbiguous t (Name <$> comps)) ∨
   ((2 ≤ length (primariesOf comps))%nat ∧
    e = ErrMultiplePrimary t (Name <$> primariesOf comps))).
Proof.
  unfold validateGroup. fold (primariesOf comps).
  destruct comps as [|a [|b rest]].
  - simpl. split.
    + intros [= <-]. split; [done|]. by left.
    + intros [_ [[_ ->]|[Hl _]]]; [done|]. simpl in Hl. lia.
  - split; [done|]. intros [Hl _]. by simpl in Hl.
  - destruct (primariesOf (a :: b :: rest)) as [|p [|q ps]] eqn:Hp.
    + split.
      * intros [= <-]. split; [done|]. by left.
      * intros [_ [[_ ->]|[Hl _]]]; [done|]. simpl in Hl. lia.
    + split; [done|]. intros [_ [[? _]|[Hl _]]]; [done|]. simpl in Hl. lia.
    + split.
      * intros [= <-]. split; [done|]. right. split; [simpl; lia|done].
      * intros [_ [[? _]|[_ ->]]]; done.
Qed.

Lemma validateGroups_ok (gs : list (RType * list ComponentInfo))
    (byType byType' : gmap RType ComponentInfo) :
  NoDup gs.*1 →
  validateGroups gs byType = (byType', None) →
  (∀ t comps, (t, comps) ∈ gs →
     ∃ info, validateGroup t comps = Selected info ∧ byType' !! t = Some info) ∧
  (∀ t, t ∉ gs.*1 → byType' !! t = byType !! t).
Proof.
  revert byType. induction gs as [|[t0 comps0] gs IH]; intros byType Hnd; simpl.
  { intros [= <-]. split; [|done]. by intros t comps ?%elem_of_nil. }
  apply NoDup_cons in Hnd as [Hfresh Hnd]. simpl in Hfresh.
  destruct (validateGroup t0 comps0) as [info0|err] eqn:Hv; [|done].
  intros Hrest. destruct (IH _ Hnd Hrest) as [Hin Hout]. split.
  - intros t comps [[= -> ->]|Hel]%elem_of_cons.
    + exists info0. split; [done|]. by rewrite (Hout _ Hfresh), lookup_insert_eq.
    + by apply Hin.
  - intros t [Hne Hnin]%not_elem_of_cons.
    by rewrite (Hout _ Hnin), lookup_insert_ne.
Qed.

Lemma validateGroups_err (gs : list (RType * list ComponentInfo))
    (byType byType' : gmap RType ComponentInfo) (e : Error) :
  validateGroups gs byType = (byType', Some e) →
  ∃ t comps, (t, comps) ∈ gs ∧ validateGroup t comps = Rejected e.
Proof.
  revert byType. induction gs as [|[t0 comps0] gs IH]; intros byType; simpl; [done|].
  destruct (validateGroup t0 comps0) as [info0|err] eqn:Hv.
  - intros Hrest. destruct (IH _ Hrest) as (t & comps & Hel & Hr).
    exists t, comps. split; [by right|done].
  - intros [= <- <-]. exists t0, comps0. split; [by left|done].
Qed.

Lemma filter_eq_NoDup (t : RType) (ts : list RType) :
  NoDup ts →
  filter (λ t', t' = t) ts = if decide (t ∈ ts) then [t] else [].
Proof.
  induction 1 as [|t0 ts Hnin Hnd IH]; simpl.
  { by destruct (decide (t ∈ [])) as [?%elem_of_nil|]. }
  destruct (decide (t0 = t)) as [->|Hne].
  - rewrite filter_cons_True by done. rewrite IH.
    destruct (decide (t ∈ ts)); [done|].
    destruct (decide (t ∈ t :: ts)) as [|Hn]; [done|]. destruct Hn. by left.
  - rewrite filter_cons_False by done. rewrite IH.
    destruct (decide (t ∈ ts)) as [Hin|Hnin'].
    + destruct (decide (t ∈ t0 :: ts)) as [|Hn]; [done|]. destruct Hn. by right.
    + destruct (decide (t ∈ t0 :: ts)) as [[?|?]%elem_of_cons|]; done.
Qed.

Lemma exportersOf_exporting (t : RType) (l : list ComponentInfo) :
  (∀ info, info ∈ l → NoDup (ExportedTypes info)) →
  exportersOf t l = exporting t l.
Proof.
  unfold exportersOf, exporting.
  induction l as [|info l IH]; intros Hnd; [done|].
  rewrite bind_cons, IH by (intros i Hi; apply Hnd; by right).
  rewrite (filter_eq_NoDup t (ExportedTypes info)) by (apply Hnd; by left).
  destruct (decide (t ∈ ExportedTypes info)) as [Hin|Hnin].
  - by rewrite filter_cons_True.
  - by rewrite filter_cons_False.
Qed.

Section Resolver.
Context {rt : GoRuntime}.

Lemma map_range_elem_of (m : gmap RType (list ComponentInfo)) t comps :
  (t, comps) ∈ map_range m ↔ m !! t = Some comps.
Proof. by rewrite map_range_perm, elem_of_map_to_list. Qed.

Lemma map_range_NoDup (m : gmap RType (list ComponentInfo)) :
  NoDup (map_range m).*1.
Proof. rewrite map_range_perm. apply NoDup_fst_map_to_list. Qed.

(** The resolver, whatever the order of the groups, and counting a
    component once for every time it exports the type. *)
Lemma validateTypeRegistrations_groups (c : Container) :
  let r := validateTypeRegistrations c in
  (r.2 = None →
   ∀ t, match exportersOf t (components c) with
        | [] => componentsByType r.1 !! t = None
        | comps => ∃ info, validateGroup t comps = Selected info ∧
                           componentsByType r.1 !! t = Some info
        end) ∧
  (∀ e, r.2 = Some e →
     ∃ t, exportersOf t (components c) ≠ [] ∧
          validateGroup t (exportersOf t (components c)) = Rejected e).
Proof.
  unfold validateTypeRegistrations.
  destruct (validateGroups _ ∅) as [byType err] eqn:Hv.
  cbn [fst snd componentsByType]. split.
  - intros ->.
    destruct (validateGroups_ok _ _ _ (map_range_NoDup _) Hv) as [Hin Hout].
    intros t. destruct (exportersOf t (components c)) as [|a comps] eqn:He.
    + rewrite Hout, lookup_empty; [done|].
      intros [[t' comps'] [Heq Hel]]%list_elem_of_fmap. simpl in Heq. subst t'.
      apply map_range_elem_of, groupByExportedType_lookup in Hel as [-> Hne].
      by rewrite He in Hne.
    + apply Hin, map_range_elem_of, groupByExportedType_lookup.
      by rewrite He.
  - intros e ->.
    destruct (validateGroups_err _ _ _ _ Hv) as (t & comps & Hel & Hr).
    apply map_range_elem_of, groupByExportedType_lookup in Hel as [-> Hne].
    by exists t.
Qed.
End Resolver.

Section Resolution.
Context {rt : GoRuntime}.

(** C1, as the code has it. Take a store in which no descriptor lists a
    type twice among its exported types, and any order of the groups.
    When validation succeeds, a type exported by exactly one descriptor
    resolves to it, primary or not, and a type exported by two or more
    resolves to the one of them that is primary, which is then unique.
    When validation fails, the error it returns is that of one of the
    types exported by two or more descriptors (which one, when several
    are at fault, depends on the order of the groups): the ambiguity
    error with the names of all the providers of that type when none is
    primary, the multiple-primary error with the names of its primaries
    when two or more are. Validation fails if and only if such a type
    exists. The store itself is not changed. *)
Theorem resolution_by_group (c : Container) :
  (∀ info, info ∈ components c → NoDup (ExportedTypes info)) →
  let r := validateTypeRegistrations c in
  components r.1 = components c ∧
  componentsByName r.1 = componentsByName c ∧
  (r.2 = None →
   ∀ t,
     (∀ p, exporting t (components c) = [p] → componentsByType r.1 !! t = Some p) ∧
     ((2 ≤ length (exporting t (components c)))%nat →
      ∃ p, primariesOf (exporting t (components c)) = [p] ∧
           componentsByType r.1 !! t = Some p)) ∧
  (∀ e, r.2 = Some e →
     ∃ t, (2 ≤ length (exporting t (components c)))%nat ∧
       ((primariesOf (exporting t (components c)) = [] ∧
         e = ErrAmbiguous t (Name <$> exporting t (components c))) ∨
        ((2 ≤ length (primariesOf (exporting t (components c))))%nat ∧
         e = ErrMultiplePrimary t
               (Name <$> primariesOf (exporting t (components c)))))) ∧
  (is_Some r.2 ↔
   ∃ t, (2 ≤ length (exporting t (components c)))%nat ∧
        length (primariesOf (exporting t (components c))) ≠ 1%nat).
Proof.
  intros Hnd r.
  destruct (validateTypeRegistrations_groups c) as [Hok Herr]. fold r in Hok, Herr.
  assert (∀ t, exportersOf t (components c) = exporting t (components c)) as Hex.
  { intros t. by apply exportersOf_exporting. }
  assert (r.2 = None → ∀ t,
     (∀ p, exporting t (components c) = [p] → componentsByType r.1 !! t = Some p) ∧
     ((2 ≤ length (exporting t (components c)))%nat →
      ∃ p, primariesOf (exporting t (components c)) = [p] ∧
           componentsByType r.1 !! t = Some p)) as Hsel.
  { intros Hnone t. specialize (Hok Hnone t). rewrite Hex in Hok.
    destruct (exporting t (components c)) as [|a comps] eqn:He.
    { split; [done|]. simpl. intros ?. lia. }
    destruct Hok as (info & Hv & Hl).
    apply validateGroup_Selected in Hv as [[= -> ->]|[Hlen Hp]].
    - split; [by intros p [= <-]|]. simpl. intros ?. lia.
    - split.
      + intros p [= -> ->]. by simpl in Hlen.
      + intros _. by exists info. }
  assert (∀ e, r.2 = Some e →
     ∃ t, (2 ≤ length (exporting t (components c)))%nat ∧
       ((primariesOf (exporting t (components c)) = [] ∧
         e = ErrAmbiguous t (Name <$> exporting t (components c))) ∨
        ((2 ≤ length (primariesOf (exporting t (components c))))%nat ∧
         e = ErrMultiplePrimary t
               (Name <$> primariesOf (exporting t (components c)))))) as Hrej.
  { intros e He. destruct (Herr e He) as (t & Hne & Hv). rewrite Hex in Hne, Hv.
    apply validateGroup_Rejected in Hv as [Hlen Hcases].
    exists t. split; [|done].
    destruct (exporting t (components c)) as [|a [|b comps]]; simpl in *; [done|done|lia]. }
  split_and!; [subst r; unfold validateTypeRegistrations;
               by destruct (validateGroups _ ∅)..|done|done|].
  split.
  - intros [e He]. destruct (Hrej e He) as (t & Hlen & [[Hp _]|[Hp _]]).
    + exists t. split; [done|]. by rewrite Hp.
    + exists t. split; [done|]. lia.
  - intros (t & Hlen & Hp). destruct (r.2) as [e|] eqn:He; [by eexists|].
    destruct (Hsel eq_refl t) as [_ Hmany].
    destruct (Hmany Hlen) as (p & Hp1 & _). by rewrite Hp1 in Hp.
Qed.
End Resolution.

(** ** The injection engine: directives *)

Section Directives.
Context {uc : UserCode}.

Lemma injectField_decision (c : Container) (i : nat) (fieldType : FieldDecl)
    (obj : gmap nat Instance) :
  injectField c i fieldType obj =
  match fd_autowire fieldType with
  | Some tag =>
      if negb (fd_exported fieldType) then Continue obj
      else match fieldDecision c (fd_type fieldType) tag with
           | Bind dependency =>
               if AssignableTo (inst_type dependency) (fd_type fieldType)
               then Continue (<[i := dependency]> obj)
               else Panics
           | Skip => Continue obj
           | Fatal err => Return (ErrAutowireField (fd_name fieldType) err)
           end
  | None => Continue obj
  end.
Proof.
  unfold injectField, fieldDecision.
  destruct (fd_autowire fieldType) as [tag|]; [|done].
  destruct (negb (fd_exported fieldType)); [done|].
  destruct (resolveDependencyUnsafe c (fd_type fieldType) tag) as [[dep|]|err]; [done..|].
  by destruct (_ || _).
Qed.

Lemma stripOptionalSuffix_nonempty (s : string) :
  (9 < String.length s)%nat → stripOptionalSuffix s ≠ "".
Proof.
  unfold stripOptionalSuffix. intros Hlen.
  destruct s as [|a s]; simpl in Hlen; [lia|].
  destruct (String.length (String a s) - 9)%nat as [|n] eqn:Hn; simpl in Hn; [lia|].
  done.
Qed.

Lemma hasOptionalSuffix_endsWith (s : string) :
  hasOptionalSuffix s = bool_decide (9 < String.length s)%nat && endsWith ",optional" s.
Proof.
  unfold hasOptionalSuffix, endsWith. simpl.
  destruct (bool_decide (9 < String.length s)%nat) eqn:Hlen; [|done]. simpl.
  apply bool_decide_eq_true in Hlen.
  rewrite (bool_decide_true (9 ≤ String.length s)%nat) by lia. done.
Qed.

(** The two readings of the tag in the code ([injectComponentUnsafe]
    for what is optional, [resolveDependencyUnsafe] for how to resolve)
    amount to one directive. *)
Lemma fieldDecision_parsed (c : Container) (fieldType : RType) (tag : string) :
  fieldDecision c fieldType tag = resolveBy c fieldType (parsedDirective tag).
Proof.
  unfold fieldDecision, resolveDependencyUnsafe, parsedDirective, resolveBy.
  rewrite <-hasOptionalSuffix_endsWith.
  destruct (decide (tag = "optional")) as [->|Hn1].
  { simpl. by destruct (getByTypeUnsafe c fieldType). }
  destruct (decide (tag = "?")) as [->|Hn2].
  { simpl. by destruct (getByTypeUnsafe c fieldType). }
  rewrite (bool_decide_false (tag = "optional")), (bool_decide_false (tag = "?")) by done.
  rewrite (bool_decide_false (tag = "optional" ∨ tag = "?")) by (intros [?|?]; done).
  simpl. destruct (hasOptionalSuffix tag) eqn:Hsuf.
  - fold (stripOptionalSuffix tag).
    assert (stripOptionalSuffix tag ≠ "") as Hne.
    { apply stripOptionalSuffix_nonempty.
      rewrite hasOptionalSuffix_endsWith in Hsuf.
      by apply andb_true_iff in Hsuf as [?%bool_decide_eq_true _]. }
    rewrite (bool_decide_false (stripOptionalSuffix tag = "")) by done.
    rewrite orb_false_r.
    destruct (bool_decide (stripOptionalSuffix tag = "required")); simpl.
    + by destruct (getByTypeUnsafe c fieldType).
    + destruct (getByNameUnsafe c (stripOptionalSuffix tag)) as [comp|err]; [|done].
      by destruct (AssignableTo (inst_type comp) fieldType).
  - destruct (decide (tag = "required")) as [->|Hn3].
    { simpl. by destruct (getByTypeUnsafe c fieldType). }
    destruct (decide (tag = "")) as [->|Hn4].
    { simpl. by destruct (getByTypeUnsafe c fieldType). }
    rewrite (bool_decide_false (tag = "required")), (bool_decide_false (tag = "")) by done.
    rewrite (bool_decide_false (tag = "required" ∨ tag = "")) by (intros [?|?]; done).
    simpl. destruct (getByNameUnsafe c tag) as [comp|err]; [|done].
    by destruct (AssignableTo (inst_type comp) fieldType).
Qed.

(** C2, as the code has it. For every tag the decision of the code for
    a settable field is the one of this precedence: [optional] and [?]
    resolve by the declared capability of the field and swallow a
    failure; a tag longer than nine bytes that ends in [,optional] is
    stripped of this suffix and swallows a failure, resolving by the name
    that is left, or by the declared capability when what is left is
    [required]; [required] and the empty tag resolve by the declared
    capability and a failure is fatal; any other tag (the bare
    [,optional] among them) resolves by that name, and an absent name or
    a component not assignable to the field is fatal. *)
Theorem directive_precedence (c : Container) (fieldType : RType) (tag : string) :
  fieldDecision c fieldType tag = resolveBy c fieldType (parsedDirective tag) ∧
  ∀ i name componentTag obj,
    injectField c i (mkField name fieldType (Some tag) componentTag true) obj =
    match resolveBy c fieldType (parsedDirective tag) with
    | Bind dependency =>
        if AssignableTo (inst_type dependency) fieldType
        then Continue (<[i := dependency]> obj)
        else Panics
    | Skip => Continue obj
    | Fatal err => Return (ErrAutowireField name err)
    end.
Proof.
  split; [apply fieldDecision_parsed|].
  intros i name componentTag obj. rewrite injectField_decision. simpl.
  by rewrite fieldDecision_parsed.
Qed.
End Directives.

(** ** The injection engine: what a completed injection leaves *)

Section Injected.
Context {uc : UserCode}.

Lemma injectField_Continue (c : Container) (i : nat) (fd : FieldDecl)
    (obj obj1 : gmap nat Instance) :
  injectField c i fd obj = Continue obj1 →
  (∀ k, k ≠ i → obj1 !! k = obj !! k) ∧ slot_after c fd (obj !! i) (obj1 !! i).
Proof.
  rewrite injectField_decision, ?fieldDecision_parsed. unfold slot_after.
  destruct (fd_autowire fd) as [tag|]; [|by intros [= <-]].
  rewrite fieldDecision_parsed.
  destruct (fd_exported fd); simpl; [|by intros [= <-]].
  destruct (resolveBy c (fd_type fd) (parsedDirective tag)) as [dep| |err]; [| |done].
  - destruct (AssignableTo (inst_type dep) (fd_type fd)) eqn:Has; [|done].
    intros [= <-]. split.
    + intros k Hk. by rewrite lookup_insert_ne.
    + by rewrite lookup_insert_eq.
  - by intros [= <-].
Qed.

Lemma injectFields_Returned (c : Container) (fields : list FieldDecl) (i : nat)
    (obj obj' : gmap nat Instance) :
  injectFields c i fields obj = Returned obj' None →
  (∀ k, (k < i)%nat → obj' !! k = obj !! k) ∧
  (∀ j fd, fields !! j = Some fd →
     slot_after c fd (obj !! (i + j)%nat) (obj' !! (i + j)%nat)).
Proof.
  revert i obj. induction fields as [|fd0 rest IH]; intros i obj; simpl.
  { intros [= <-]. split; [done|]. intros j fd. by rewrite lookup_nil. }
  destruct (injectField c i fd0 obj) as [obj1| |] eqn:Hround; [|done..].
  intros Hrest. destruct (IH _ _ Hrest) as [Hlow Hslots].
  destruct (injectField_Continue _ _ _ _ _ Hround) as [Hother Hslot].
  split.
  - intros k Hk. rewrite Hlow by lia. apply Hother. lia.
  - intros [|j] fd Hfd; simpl in Hfd.
    + injection Hfd as <-. rewrite Nat.add_0_r, Hlow by lia. done.
    + specialize (Hslots j fd Hfd).
      rewrite <-Nat.add_succ_comm. by rewrite <-(Hother (S i + j)%nat) by lia.
Qed.

End Injected.

(** ** The registration paths *)

Lemma applyCalls_keeps_own_type (b : ObjectBuilder) (ks : list BuilderCall) :
  inst_type (b_instance b) ∈ b_exportedTypes b →
  b_instance (applyCalls b ks) = b_instance b ∧
  inst_type (b_instance b) ∈ b_exportedTypes (applyCalls b ks).
Proof.
  unfold applyCalls. revert b. induction ks as [|k ks IH]; intros b Hb; simpl; [done|].
  destruct (IH (applyCall b k)) as [Hi He].
  - destruct k; simpl; try done. apply elem_of_app. by left.
  - assert (b_instance (applyCall b k) = b_instance b) as Hk by (by destruct k).
    rewrite Hk in Hi, He. done.
Qed.

(** The fluent path: a builder made by [newObjectBuilder], configured by
    any calls and committed by [register], keeps the invariant. *)
Lemma register_exports_own_type (c : Container) (instance : Instance)
    (ks : list BuilderCall) :
  exports_own_type c →
  exports_own_type (register (applyCalls (newObjectBuilder instance) ks) c).1.
Proof.
  intros Hc. unfold register, registerComponent.
  destruct (componentsByName c !! _); simpl; [done|].
  intros info [Hin| ->%list_elem_of_singleton]%elem_of_app; [by apply Hc|]. simpl.
  destruct (applyCalls_keeps_own_type (newObjectBuilder instance) ks) as [-> He].
  - simpl. by left.
  - done.
Qed.

Section ScannerFacts.
Context {gs : GoStrings} {uc : UserCode}.

(** The scanner path: the descriptor that [AutoRegister] stores exports
    nothing. *)
Lemma AutoRegister_exports_nothing (c c' : Container) (w w' : World) (instance : Instance) :
  AutoRegister c w instance = (c', w', None) →
  ∃ info, components c' = components c ++ [info] ∧
          Instance_ info = instance ∧ ExportedTypes info = [] ∧ InstanceType info = None.
Proof.
  unfold AutoRegister.
  destruct (negb _); [done|].
  destruct (asComponent instance) as [[getName getPriority]|]; [|done].
  match goal with |- context [registerComponent c ?i] => set (info := i) end.
  unfold registerComponent.
  destruct (componentsByName c !! Name info); [done|].
  intros [= <- _]. by exists info.
Qed.
End ScannerFacts.

(** * More of the package *)

(** ** The store: registration and lookup *)

(** A store as registration builds it: the index and the collection
    agree, and no two descriptors of the collection bear the same name. *)
Definition store_wf (c : Container) : Prop :=
  store_consistent c ∧ NoDup (Name <$> components c).

(** The descriptor a builder commits. *)
Definition infoOf (b : ObjectBuilder) : ComponentInfo :=
  mkInfo (b_instance b) (Some (inst_type (b_instance b))) (b_name b)
         (b_priority b) (b_exportedTypes b) (b_isPrimary b).

Lemma store_wf_new : store_wf NewContainer.
Proof. split; [apply store_consistent_new|constructor]. Qed.

Lemma registerComponent_wf (c : Container) (info : ComponentInfo) :
  store_wf c → store_wf (registerComponent c info).1.
Proof.
  intros [Hc Hnd]. split; [by apply registerComponent_consistent|].
  unfold registerComponent.
  destruct (componentsByName c !! Name info) as [ex|] eqn:Hex; simpl; [done|].
  rewrite fmap_app. simpl. apply NoDup_app. split_and!; [done| |apply NoDup_singleton].
  intros name [i [Hn Hi]]%list_elem_of_fmap Hk%list_elem_of_singleton.
  assert (componentsByName c !! Name info = Some i) as Hidx.
  { apply Hc. split; [done|congruence]. }
  congruence.
Qed.

(** X1. Registering a descriptor under a name that is free succeeds, puts
    it last in the collection, and makes [GetByName] return its instance
    under that name; lookups of every other name, and all lookups by type,
    answer as before. *)
Theorem register_then_lookup (c : Container) (info : ComponentInfo) :
  componentsByName c !! Name info = None →
  (registerComponent c info).2 = None ∧
  components (registerComponent c info).1 = components c ++ [info] ∧
  getByNameUnsafe (registerComponent c info).1 (Name info) = Ok (Instance_ info) ∧
  (∀ name, name ≠ Name info →
     getByNameUnsafe (registerComponent c info).1 name = getByNameUnsafe c name) ∧
  (∀ t, getByTypeUnsafe (registerComponent c info).1 t = getByTypeUnsafe c t).
Proof.
  intros Hfree. rewrite (registerComponent_fresh c info Hfree). simpl.
  split_and!; [done..| | |done].
  - unfold getByNameUnsafe. simpl. by rewrite lookup_insert_eq.
  - intros name Hne. unfold getByNameUnsafe. simpl. by rewrite lookup_insert_ne.
Qed.

(** [GetByName] on a store that registration built. *)
Lemma getByNameUnsafe_wf (c : Container) (name : string) :
  store_consistent c →
  match getByNameUnsafe c name with
  | Ok instance => ∃ info, info ∈ components c ∧ Name info = name ∧ Instance_ info = instance
  | Fail err => err = ErrNameNotFound name ∧ name ∉ Name <$> components c
  end.
Proof.
  intros Hc. unfold getByNameUnsafe.
  destruct (componentsByName c !! name) as [info|] eqn:Hidx.
  - apply Hc in Hidx as [Hin Hname]. by exists info.
  - split; [done|]. intros [i [-> Hi]]%list_elem_of_fmap.
    assert (componentsByName c !! Name i = Some i) as Hidx' by (by apply Hc).
    congruence.
Qed.

(** ** The pending builders *)

Lemma register_infoOf (b : ObjectBuilder) (c : Container) :
  register b c = registerComponent c (infoOf b).
Proof. done. Qed.

Lemma registerComponent_keeps_index (c : Container) (info : ComponentInfo)
    (name : string) (i : ComponentInfo) :
  componentsByName c !! name = Some i →
  componentsByName (registerComponent c info).1 !! name = Some i.
Proof.
  intros Hidx. unfold registerComponent.
  destruct (componentsByName c !! Name info) as [ex|] eqn:Hex; simpl; [done|].
  rewrite lookup_insert_ne; [done|]. congruence.
Qed.

Lemma registerPendingBuilders_keeps_index (pending : list ObjectBuilder) (c : Container)
    (name : string) (i : ComponentInfo) :
  componentsByName c !! name = Some i →
  componentsByName (registerPendingBuilders c pending).1.1 !! name = Some i.
Proof.
  revert c. induction pending as [|b rest IH]; intros c Hidx; simpl; [done|].
  rewrite register_infoOf.
  pose proof (registerComponent_keeps_index c (infoOf b) name i Hidx) as Hstep.
  destruct (registerComponent c (infoOf b)) as [c1 [err|]]; simpl in *; [done|].
  specialize (IH c1 Hstep).
  by destruct (registerPendingBuilders c1 rest) as [[c2 p2] [err|]].
Qed.

Lemma registerPendingBuilders_wf (pending : list ObjectBuilder) (c : Container) :
  store_wf c → store_wf (registerPendingBuilders c pending).1.1.
Proof.
  revert c. induction pending as [|b rest IH]; intros c Hc; simpl; [done|].
  rewrite register_infoOf.
  pose proof (registerComponent_wf c (infoOf b) Hc) as Hstep.
  destruct (registerComponent c (infoOf b)) as [c1 [err|]]; simpl in *; [done|].
  specialize (IH c1 Hstep).
  by destruct (registerPendingBuilders c1 rest) as [[c2 p2] [err|]].
Qed.


(** X2. When [registerPendingBuilders] returns nil, the pending list is
    cleared and the descriptors of all the builders follow the earlier
    components, in the order of the list. When it returns an error, the
    pending list is left as it was; the error is the duplicate-name error
    of the first builder whose name was taken, and exactly the builders
    before that one have been registered. Neither the index by type nor
    the started flag is touched. *)
Theorem registerPendingBuilders_outcome (pending : list ObjectBuilder) (c : Container) :
  componentsByType (registerPendingBuilders c pending).1.1 = componentsByType c ∧
  started (registerPendingBuilders c pending).1.1 = started c ∧
  match registerPendingBuilders c pending with
  | (c', pending', None) =>
      pending' = [] ∧ components c' = components c ++ (infoOf <$> pending)
  | (c', pending', Some err) =>
      pending' = pending ∧
      ∃ pre b post existing,
        pending = pre ++ b :: post ∧
        components c' = components c ++ (infoOf <$> pre) ∧
        componentsByName c' !! b_name b = Some existing ∧
        err = ErrAlreadyRegistered (b_name b) (InstanceType existing)
                (Some (inst_type (b_instance b)))
  end.
Proof.
  revert c. induction pending as [|b rest IH]; intros c; simpl.
  { by rewrite app_nil_r. }
  rewrite register_infoOf. unfold registerComponent at 1 2 3.
  destruct (componentsByName c !! Name (infoOf b)) as [ex|] eqn:Hex.
  - split_and!; [done..|]. exists [], b, rest, ex. simpl. by rewrite app_nil_r.
  - match goal with |- context [registerPendingBuilders ?c1 rest] =>
      specialize (IH c1); destruct (registerPendingBuilders c1 rest)
        as [[c2 p2] [err|]] end; simpl in *.
    + destruct IH as (Hty & Hst & _ & pre & b' & post & ex & -> & Hcomps & Hidx & ->).
      split_and!; [done..|]. exists (b :: pre), b', post, ex.
      split_and!; [done| |done..]. by rewrite Hcomps, <-app_assoc.
    + destruct IH as (Hty & Hst & _ & Hcomps).
      split_and!; [done..|]. by rewrite Hcomps, <-app_assoc.
Qed.

(** X3. A failed [registerPendingBuilders] cannot be repaired by calling
    it again: the pending list still holds the builders that were
    registered, so the second call fails too (on the first builder, whose
    name is now taken) and changes nothing. *)
Theorem registerPendingBuilders_retry (pending pending' : list ObjectBuilder)
    (c c' : Container) (err : Error) :
  registerPendingBuilders c pending = (c', pending', Some err) →
  ∃ b rest existing,
    pending' = b :: rest ∧
    componentsByName c' !! b_name b = Some existing ∧
    registerPendingBuilders c' pending' =
      (c', pending',
       Some (ErrAlreadyRegistered (b_name b) (InstanceType existing)
               (Some (inst_type (b_instance b))))).
Proof.
  destruct pending as [|b rest]; simpl; [done|].
  rewrite register_infoOf. intros Hrun.
  assert (pending' = b :: rest ∧ is_Some (componentsByName c' !! b_name b)) as [-> [ex Hex]].
  { unfold registerComponent in Hrun.
    destruct (componentsByName c !! Name (infoOf b)) as [ex|] eqn:Hex.
    - injection Hrun as <- <- _. split; [done|]. by exists ex.
    - match type of Hrun with context [registerPendingBuilders ?c1 rest] =>
        pose proof (registerPendingBuilders_keeps_index rest c1 (b_name b) (infoOf b)) as Hk;
        destruct (registerPendingBuilders c1 rest) as [[c2 p2] [e|]] end; [|done].
      injection Hrun as <- <- _. split; [done|]. eexists. apply Hk.
      simpl. apply lookup_insert_eq. }
  exists b, rest, ex. split_and!; [done..|].
  simpl. rewrite register_infoOf.
  by rewrite (registerComponent_indexed c' (infoOf b) ex Hex).
Qed.

(** ** The builder *)

(** The type [Export] records for an argument of a given type. *)
Definition exportTarget (typePtr : RType) : RType :=
  if bool_decide (kindOf typePtr = Ptr) then elemOf typePtr else typePtr.

Definition calledName (k : BuilderCall) : option string :=
  match k with CallName n => Some n | _ => None end.

Definition calledPriority (k : BuilderCall) : option Z :=
  match k with CallPriority p => Some p | _ => None end.

Definition calledExport (k : BuilderCall) : option RType :=
  match k with CallExport t => Some (exportTarget t) | _ => None end.

Lemma applyCalls_from (b : ObjectBuilder) (ks : list BuilderCall) :
  b_instance (applyCalls b ks) = b_instance b ∧
  b_exportedTypes (applyCalls b ks) = b_exportedTypes b ++ omap calledExport ks ∧
  b_name (applyCalls b ks) = default (b_name b) (last (omap calledName ks)) ∧
  b_priority (applyCalls b ks) = default (b_priority b) (last (omap calledPriority ks)) ∧
  (b_isPrimary (applyCalls b ks) = true ↔ b_isPrimary b = true ∨ CallPrimary ∈ ks).
Proof.
  unfold applyCalls. revert b. induction ks as [|k ks IH]; intros b; simpl.
  { rewrite app_nil_r. split_and!; [done..|]. split; [by left|].
    by intros [?|?%elem_of_nil]. }
  destruct (IH (applyCall b k)) as (Hi & He & Hn & Hp & Hprim).
  rewrite Hi, He, Hn, Hp, Hprim. clear IH Hi He Hn Hp Hprim.
  rewrite elem_of_cons.
  destruct k as [n|p|t|]; simpl.
  - rewrite last_cons. split_and!; [done|done| |done|intuition congruence].
    unfold omap. by destruct (last _).
  - rewrite last_cons. split_and!; [done|done|done| |intuition congruence].
    unfold omap. by destruct (last _).
  - split_and!; [done| |done|done|intuition congruence]. by rewrite <-app_assoc.
  - split_and!; [done|done|done|done|intuition congruence].
Qed.

(** X4. What a chain of builder calls commits: the instance given to
    [Object]; as exported types its own type followed by the types of the
    [Export] calls in the order of the calls (a pointer argument counts
    for the type it points to, repeated calls are all kept); the name of
    the last [Name] call, or else the string of the type without its
    leading pointer; the priority of the last [Priority] call, or else 0;
    and it is primary exactly when [Primary] was called. *)
Theorem builder_commits (instance : Instance) (ks : list BuilderCall) :
  let info := infoOf (applyCalls (newObjectBuilder instance) ks) in
  Instance_ info = instance ∧
  InstanceType info = Some (inst_type instance) ∧
  ExportedTypes info = inst_type instance :: omap calledExport ks ∧
  Name info =
    default (if bool_decide (kindOf (inst_type instance) = Ptr)
             then typeString (elemOf (inst_type instance))
             else typeString (inst_type instance))
            (last (omap calledName ks)) ∧
  Priority info = default 0 (last (omap calledPriority ks)) ∧
  (IsPrimary info = true ↔ CallPrimary ∈ ks).
Proof.
  destruct (applyCalls_from (newObjectBuilder instance) ks) as (Hi & He & Hn & Hp & Hprim).
  unfold infoOf. simpl. rewrite Hi, He, Hn, Hp, Hprim. simpl.
  split_and!; [done..|]. split; [by intros [?|?]|by right].
Qed.

(** X5. Builders that are given no name take it from the type, without
    its leading pointer: two instances of one type, or a pointer to a
    struct and a struct of that type held by value, ask for the same name,
    and the second of them to register gets the duplicate-name error. *)
Theorem default_names_collide (c : Container) (first second : Instance) :
  inst_type second = inst_type first ∨
  (kindOf (inst_type first) = Ptr ∧ inst_type second = elemOf (inst_type first) ∧
   kindOf (inst_type second) ≠ Ptr) →
  let c1 := (register (newObjectBuilder first) c).1 in
  b_name (newObjectBuilder second) = b_name (newObjectBuilder first) ∧
  ∃ existing,
    register (newObjectBuilder second) c1 =
      (c1, Some (ErrAlreadyRegistered (b_name (newObjectBuilder first))
                   (InstanceType existing) (Some (inst_type second)))).
Proof.
  intros Htypes c1.
  assert (b_name (newObjectBuilder second) = b_name (newObjectBuilder first)) as Hname.
  { simpl. destruct Htypes as [->|(Hptr & -> & Hnp)]; [done|].
    by rewrite (bool_decide_true _ Hptr), (bool_decide_false _ Hnp). }
  split; [done|].
  assert (is_Some (componentsByName c1 !! b_name (newObjectBuilder first))) as [ex Hex].
  { subst c1. rewrite register_infoOf. unfold registerComponent.
    destruct (componentsByName c !! Name (infoOf (newObjectBuilder first))) as [ex|] eqn:Hex.
    - by exists ex.
    - eexists. simpl. apply lookup_insert_eq. }
  exists ex. rewrite register_infoOf.
  rewrite (registerComponent_indexed c1 (infoOf (newObjectBuilder second)) ex).
  - unfold infoOf at 1 2. cbn [Name InstanceType]. by rewrite Hname.
  - unfold infoOf. cbn [Name]. by rewrite Hname.
Qed.

(** ** The index by type *)

Lemma elem_of_exportersOf (t : RType) (l : list ComponentInfo) (info : ComponentInfo) :
  info ∈ exportersOf t l ↔ info ∈ l ∧ t ∈ ExportedTypes info.
Proof.
  unfold exportersOf. rewrite list_elem_of_bind. split.
  - intros (i & Hin & Hi). apply list_elem_of_fmap in Hin as (t' & -> & Ht').
    apply list_elem_of_filter in Ht' as [-> Ht']. done.
  - intros [Hi Ht]. exists info. split; [|done].
    apply list_elem_of_fmap. exists t. split; [done|].
    by apply list_elem_of_filter.
Qed.

Lemma validateGroup_Selected_elem (t : RType) (comps : list ComponentInfo)
    (info : ComponentInfo) :
  validateGroup t comps = Selected info →
  info ∈ comps ∧ (comps = [info] ∨ IsPrimary info = true).
Proof.
  intros [->|[_ Hp]]%validateGroup_Selected.
  - split; [by left|by left].
  - assert (info ∈ primariesOf comps) as Hin by (rewrite Hp; by left).
    apply list_elem_of_filter in Hin as [Hprim Hin]. split; [done|by right].
Qed.

Lemma validateGroups_sound (gs : list (RType * list ComponentInfo))
    (byType : gmap RType ComponentInfo) (t : RType) (info : ComponentInfo) :
  (validateGroups gs byType).1 !! t = Some info →
  byType !! t = Some info ∨
  ∃ comps, (t, comps) ∈ gs ∧ validateGroup t comps = Selected info.
Proof.
  revert byType. induction gs as [|[t0 comps0] gs IH]; intros byType; simpl; [by left|].
  destruct (validateGroup t0 comps0) as [info0|err] eqn:Hv; simpl; [|by left].
  intros [Hprev|(comps & Hel & Hsel)]%IH.
  - destruct (decide (t0 = t)) as [->|Hne].
    + rewrite lookup_insert_eq in Hprev. injection Hprev as ->.
      right. exists comps0. split; [by left|done].
    + rewrite lookup_insert_ne in Hprev by done. by left.
  - right. exists comps. split; [by right|done].
Qed.

Lemma validateGroups_complete (gs : list (RType * list ComponentInfo))
    (byType : gmap RType ComponentInfo) :
  (∀ t comps, (t, comps) ∈ gs → ∃ info, validateGroup t comps = Selected info) →
  (validateGroups gs byType).2 = None.
Proof.
  revert byType. induction gs as [|[t0 comps0] gs IH]; intros byType Hall; simpl; [done|].
  destruct (Hall t0 comps0) as [info0 ->]; [by left|].
  apply IH. intros t comps Hel. apply Hall. by right.
Qed.

Section Index.
Context {rt : GoRuntime}.

(** X6. Whatever [validateTypeRegistrations] returns, a lookup by type
    in the container it leaves never yields a stranger: the instance it
    returns belongs to a registered component that exports the type, and
    that component is the only entry of the group of the type or is
    primary. (Nothing here says that the instance implements the type:
    [Export] does not check it.) *)
Theorem lookup_by_type_sound (c : Container) (t : RType) (instance : Instance) :
  getByTypeUnsafe (validateTypeRegistrations c).1 t = Ok instance →
  ∃ info,
    info ∈ components c ∧ t ∈ ExportedTypes info ∧ Instance_ info = instance ∧
    (exportersOf t (components c) = [info] ∨ IsPrimary info = true).
Proof.
  unfold getByTypeUnsafe, validateTypeRegistrations.
  destruct (validateGroups _ ∅) as [byType err] eqn:Hv. cbn [fst componentsByType].
  destruct (byType !! t) as [info|] eqn:Hidx; [|done].
  intros [= <-]. exists info.
  pose proof (validateGroups_sound (map_range (groupByExportedType (components c))) ∅ t info)
    as Hsound.
  rewrite Hv in Hsound. destruct (Hsound Hidx) as [Hempty|(comps & Hel & Hsel)].
  { by rewrite lookup_empty in Hempty. }
  apply map_range_elem_of, groupByExportedType_lookup in Hel as [-> Hne].
  apply validateGroup_Selected_elem in Hsel as [Hin Hwhy].
  apply elem_of_exportersOf in Hin as [Hin Ht]. done.
Qed.

Lemma validateTypeRegistrations_lookup (c : Container) (t : RType) :
  (validateTypeRegistrations c).2 = None →
  componentsByType (validateTypeRegistrations c).1 !! t =
    match groupByExportedType (components c) !! t with
    | Some comps =>
        match validateGroup t comps with Selected info => Some info | Rejected _ => None end
    | None => None
    end.
Proof.
  unfold validateTypeRegistrations.
  destruct (validateGroups _ ∅) as [byType err] eqn:Hv. cbn [fst snd componentsByType].
  intros ->. destruct (validateGroups_ok _ _ _ (map_range_NoDup _) Hv) as [Hin Hout].
  destruct (groupByExportedType (components c) !! t) as [comps|] eqn:Hg.
  - destruct (Hin t comps) as (info & -> & Hl); [by apply map_range_elem_of|done].
  - rewrite Hout, lookup_empty; [done|].
    intros [[t' comps'] [Heq Hel]]%list_elem_of_fmap. simpl in Heq. subst t'.
    apply map_range_elem_of in Hel. congruence.
Qed.
End Index.

(** X7. Whether validation succeeds, and the container it then leaves, do
    not depend on the order in which [range] visits the groups: two
    runtimes agree on every store that either of them validates. (Which
    error is returned when validation fails may depend on it.) *)
Theorem validation_order_independent (rt1 rt2 : GoRuntime) (c : Container) :
  (validateTypeRegistrations (rt := rt1) c).2 = None →
  validateTypeRegistrations (rt := rt2) c = validateTypeRegistrations (rt := rt1) c.
Proof.
  intros Hok1.
  assert ((validateTypeRegistrations (rt := rt2) c).2 = None) as Hok2.
  { revert Hok1. unfold validateTypeRegistrations.
    destruct (validateGroups (map_range (GoRuntime := rt1) _) ∅) as [byType1 err1] eqn:Hv1.
    cbn [snd]. intros ->.
    destruct (validateGroups_ok _ _ _ (map_range_NoDup (rt := rt1) _) Hv1) as [Hin _].
    pose proof (validateGroups_complete
                  (map_range (GoRuntime := rt2) (groupByExportedType (components c))) ∅)
      as Hcomplete.
    destruct (validateGroups (map_range (GoRuntime := rt2) _) ∅) as [byType2 err2].
    cbn [snd] in *. apply Hcomplete.
    intros t comps Hel%(map_range_elem_of (rt := rt2)).
    destruct (Hin t comps) as (info & Hsel & _); [by apply (map_range_elem_of (rt := rt1))|].
    by exists info. }
  pose proof (λ t, validateTypeRegistrations_lookup (rt := rt1) c t Hok1) as Hl1.
  pose proof (λ t, validateTypeRegistrations_lookup (rt := rt2) c t Hok2) as Hl2.
  revert Hok1 Hok2 Hl1 Hl2. unfold validateTypeRegistrations.
  destruct (validateGroups (map_range (GoRuntime := rt1) _) ∅) as [byType1 err1].
  destruct (validateGroups (map_range (GoRuntime := rt2) _) ∅) as [byType2 err2].
  cbn [fst snd componentsByType]. intros -> -> Hl1 Hl2.
  f_equal. f_equal. apply map_eq. intros t. by rewrite Hl1, Hl2.
Qed.

(** ** Injection *)

(** An instance that one of the two indexes of the container holds. *)
Definition indexed (c : Container) (v : Instance) : Prop :=
  ∃ info, Instance_ info = v ∧
    ((∃ t, componentsByType c !! t = Some info) ∨
     (∃ name, componentsByName c !! name = Some info)).

Section InjectionFacts.
Context {uc : UserCode}.

Lemma resolveBy_Bind (c : Container) (fieldType : RType) (d : Directive) (v : Instance) :
  resolveBy c fieldType d = Bind v →
  indexed c v ∧
  (how d = ByCapability ∨ AssignableTo (inst_type v) fieldType = true).
Proof.
  unfold resolveBy, resolveHow, getByTypeUnsafe, getByNameUnsafe.
  destruct (how d) as [|name].
  - destruct (componentsByType c !! fieldType) as [info|] eqn:Hidx.
    + intros [= <-]. split; [|by left]. exists info. split; [done|]. left. by exists fieldType.
    + by destruct (optional d).
  - destruct (componentsByName c !! name) as [info|] eqn:Hidx.
    + destruct (AssignableTo (inst_type (Instance_ info)) fieldType) eqn:Has.
      * intros [= <-]. split; [|by right]. exists info. split; [done|]. right. by exists name.
      * by destruct (optional d).
    + by destruct (optional d).
Qed.

(** X8. A round of injection panics in one case only: the field is
    exported, its tag asks for resolution by the type of the field (the
    empty tag, [required], [optional], [?] or [required,optional]), and
    the index by type holds for that type a component whose instance is
    not assignable to the field. Resolution by name checks the type and
    never panics. *)
Theorem injectField_panics_iff (c : Container) (i : nat) (fd : FieldDecl)
    (obj : gmap nat Instance) :
  injectField c i fd obj = Panics ↔
  ∃ tag info,
    fd_autowire fd = Some tag ∧ fd_exported fd = true ∧
    how (parsedDirective tag) = ByCapability ∧
    componentsByType c !! fd_type fd = Some info ∧
    AssignableTo (inst_type (Instance_ info)) (fd_type fd) = false.
Proof.
  rewrite injectField_decision.
  destruct (fd_autowire fd) as [tag|]; [|split; [done|by intros (?&?&?&_)]].
  rewrite fieldDecision_parsed.
  destruct (fd_exported fd); simpl; [|split; [done|by intros (?&?&_&?&_)]].
  destruct (resolveBy c (fd_type fd) (parsedDirective tag)) as [dep| |err] eqn:Hres.
  - destruct (AssignableTo (inst_type dep) (fd_type fd)) eqn:Has.
    + split; [done|]. intros (tag' & info & [= <-] & _ & Hhow & Hidx & Hna).
      unfold resolveBy, resolveHow, getByTypeUnsafe in Hres.
      rewrite Hhow, Hidx in Hres. injection Hres as <-. congruence.
    + split; [|done]. intros _.
      destruct (resolveBy_Bind _ _ _ _ Hres) as [_ [Hhow|?]]; [|congruence].
      unfold resolveBy, resolveHow, getByTypeUnsafe in Hres. rewrite Hhow in Hres.
      destruct (componentsByType c !! fd_type fd) as [info|] eqn:Hidx.
      * injection Hres as <-. by exists tag, info.
      * by destruct (optional (parsedDirective tag)).
  - split; [done|]. intros (tag' & info & [= <-] & _ & Hhow & Hidx & Hna).
    unfold resolveBy, resolveHow, getByTypeUnsafe in Hres.
    by rewrite Hhow, Hidx in Hres.
  - split; [done|]. intros (tag' & info & [= <-] & _ & Hhow & Hidx & Hna).
    unfold resolveBy, resolveHow, getByTypeUnsafe in Hres.
    by rewrite Hhow, Hidx in Hres.
Qed.

(** A round either leaves the object alone or sets field [i] to an
    indexed instance, and does the same on every object. *)
Lemma injectField_Continue_shape (c : Container) (i : nat) (fd : FieldDecl)
    (obj obj1 : gmap nat Instance) :
  injectField c i fd obj = Continue obj1 →
  (obj1 = obj ∧ ∀ o, injectField c i fd o = Continue o) ∨
  (∃ v, indexed c v ∧ obj1 = <[i := v]> obj ∧
        ∀ o, injectField c i fd o = Continue (<[i := v]> o)).
Proof.
  rewrite injectField_decision.
  assert (∀ o, injectField c i fd o = _) as Hany by (intros o; apply injectField_decision).
  destruct (fd_autowire fd) as [tag|]; [|intros [= <-]; by left].
  rewrite fieldDecision_parsed in *.
  destruct (negb (fd_exported fd)); [intros [= <-]; by left|].
  destruct (resolveBy c (fd_type fd) (parsedDirective tag)) as [dep| |err] eqn:Hres.
  - destruct (AssignableTo (inst_type dep) (fd_type fd)); [|done].
    intros [= <-]. right. exists dep. split_and!; [|done..].
    by destruct (resolveBy_Bind _ _ _ _ Hres).
  - intros [= <-]. by left.
  - done.
Qed.



Lemma injectFields_again (c : Container) (fields : list FieldDecl) (i : nat)
    (obj obj' : gmap nat Instance) :
  injectFields c i fields obj = Returned obj' None →
  injectFields c i fields obj' = Returned obj' None.
Proof.
  revert i obj. induction fields as [|fd rest IH]; intros i obj; simpl.
  { by intros [= <-]. }
  destruct (injectField c i fd obj) as [obj1|e|] eqn:Hround; [|done..].
  intros Hrest. pose proof (IH _ _ Hrest) as Hagain.
  destruct (injectFields_Returned _ _ _ _ _ Hrest) as [Hlow _].
  destruct (injectField_Continue_shape _ _ _ _ _ Hround) as [[-> Hany]|(v & _ & -> & Hany)].
  - by rewrite Hany.
  - rewrite Hany. rewrite (insert_id obj' i v); [done|].
    rewrite Hlow by lia. apply lookup_insert_eq.
Qed.

(** X10. Injection of a component is idempotent: when
    [injectComponentUnsafe] returns nil, running it again on the heap it
    left returns nil and changes nothing. *)
Theorem injectComponentUnsafe_again (c : Container)
    (heap heap' : gmap nat (gmap nat Instance)) (component : Instance) :
  injectComponentUnsafe c heap component = Returned heap' None →
  injectComponentUnsafe c heap' component = Returned heap' None.
Proof.
  unfold injectComponentUnsafe.
  destruct (negb (bool_decide (kindOf (inst_type component) = Ptr))).
  { by intros [= <-]. }
  destruct (heap !! inst_addr component) as [obj|] eqn:Hobj; [|done].
  destruct (negb (bool_decide (kindOf (elemOf (inst_type component)) = Struct))); [done|].
  destruct (injectFields c 0 _ obj) as [obj' [e|]|] eqn:Hloop; [done| |done].
  intros [= <-]. rewrite lookup_insert_eq.
  rewrite (injectFields_again _ _ _ _ _ Hloop). by rewrite insert_insert_eq.
Qed.

(** X11. The error of [InjectDependencies] pinpoints the failure: it
    names the first component, in registration order, on which injection
    fails, and inside it the first exported field whose directive is not
    optional and does not resolve, and it wraps the error of that
    resolution; the components before it were injected without error. *)
Theorem InjectDependencies_error (c : Container)
    (heap heap' : gmap nat (gmap nat Instance)) (e : Error) :
  InjectDependencies c heap = Returned heap' (Some e) →
  ∃ pre info post heap1 fd tag cause,
    components c = pre ++ info :: post ∧
    injectAll c pre heap = Returned heap1 None ∧
    fd ∈ structFields (elemOf (inst_type (Instance_ info))) ∧
    fd_autowire fd = Some tag ∧ fd_exported fd = true ∧
    optional (parsedDirective tag) = false ∧
    resolveBy c (fd_type fd) (parsedDirective tag) = Fatal cause ∧
    e = ErrInjectFailed (Name info) (ErrAutowireField (fd_name fd) cause).
Proof.
  unfold InjectDependencies.
  assert (∀ fields i obj obj' e0,
    injectFields c i fields obj = Returned obj' (Some e0) →
    ∃ fd tag cause, fd ∈ fields ∧ fd_autowire fd = Some tag ∧ fd_exported fd = true ∧
      optional (parsedDirective tag) = false ∧
      resolveBy c (fd_type fd) (parsedDirective tag) = Fatal cause ∧
      e0 = ErrAutowireField (fd_name fd) cause) as Hfield.
  { induction fields as [|fd rest IH]; intros i obj obj' e0; simpl; [done|].
    destruct (injectField c i fd obj) as [obj1|e1|] eqn:Hround; [| |done].
    - intros (fd' & tag & cause & Hin & H)%IH. exists fd', tag, cause. split; [by right|done].
    - intros [= <- <-]. rewrite injectField_decision in Hround.
      destruct (fd_autowire fd) as [tag|] eqn:Htag; [|done].
      rewrite fieldDecision_parsed in Hround.
      destruct (fd_exported fd) eqn:Hexp; simpl in Hround; [|done].
      destruct (resolveBy c (fd_type fd) (parsedDirective tag)) as [dep| |cause] eqn:Hres.
      + by destruct (AssignableTo (inst_type dep) (fd_type fd)).
      + done.
      + injection Hround as <-. exists fd, tag, cause.
        split_and!; [by left|done|done| |exact Hres|done].
        unfold resolveBy in Hres.
        destruct (resolveHow c (fd_type fd) (how (parsedDirective tag))); [done|].
        by destruct (optional (parsedDirective tag)). }
  generalize (components c) as infos. intros infos. revert heap.
  induction infos as [|info rest IH]; intros heap; simpl; [done|].
  destruct (injectComponentUnsafe c heap (Instance_ info)) as [h1 [e1|]|] eqn:Hstep;
    [| |done].
  - intros [= <- <-]. unfold injectComponentUnsafe in Hstep.
    destruct (negb (bool_decide (kindOf (inst_type (Instance_ info)) = Ptr))); [done|].
    destruct (heap !! inst_addr (Instance_ info)) as [obj|]; [|done].
    destruct (negb (bool_decide (kindOf (elemOf (inst_type (Instance_ info))) = Struct)));
      [done|].
    destruct (injectFields c 0 _ obj) as [obj' [e0|]|] eqn:Hloop; [|done..].
    injection Hstep as <- <-.
    destruct (Hfield _ _ _ _ _ Hloop) as (fd & tag & cause & Hin & Htag & Hexp & Hopt & Hres & ->).
    exists [], info, rest, heap, fd, tag, cause. by split_and!.
  - intros (pre & info' & post & heap1 & fd & tag & cause & -> & Hpre & H)%IH.
    exists (info :: pre), info', post, heap1, fd, tag, cause.
    split_and!; [done| |apply H..]. simpl. by rewrite Hstep.
Qed.
End InjectionFacts.

(** ** The lifecycle and [Run] *)


Section RunSection.
Context {rt : GoRuntime} {uc : UserCode}.



Lemma abortingLoop_success probe wrap (l : list ComponentInfo) (w : World) :
  ph_err (abortingLoop probe wrap l w) = None →
  ph_calls (abortingLoop probe wrap l w) = (λ i, (i, None)) <$> exposes probe l.
Proof.
  revert w. induction l as [|x rest IH]; intros w; simpl; [done|].
  destruct (probe (Instance_ x)) as [cb|] eqn:Hp.
  - rewrite (exposes_cons_Some _ _ _ _ Hp).
    destruct (cb w) as [w' [err|]]; simpl; [done|].
    intros He. by rewrite (IH _ He).
  - rewrite (exposes_cons_None _ _ _ Hp). apply IH.
Qed.


Lemma Start_success_calls (c : Container) (w : World) :
  ph_err (Start c w).2 = None →
  started c = false ∧
  ph_calls (Start c w).2 =
    (λ i, (i, None)) <$> exposes asStartable (getSortedComponents c false) ∧
  (Start c w).1 =
    mkContainer (componentsByName c) (componentsByType c) (components c) true.
Proof.
  destruct (started c) eqn:Hs.
  { by rewrite (Start_already_started c w Hs). }
  intros Hok. pose proof Hok as Hok'. rewrite (Start_runs_loop c w Hs) in Hok'.
  split_and!; [done| |].
  - rewrite (Start_runs_loop c w Hs). by apply abortingLoop_success.
  - unfold Start. by rewrite Hs, Hok'.
Qed.

(** X12. When [Initialize] returns nil it has invoked [Init] on every
    component that has it, once each, highest priority first, and every
    call returned nil; the same holds of [Start], which then, and only
    then, marks the container started. *)
Theorem phase_success (c : Container) (w : World) :
  (ph_err (Initialize c w).2 = None →
   ph_calls (Initialize c w).2 =
     (λ i, (i, None)) <$> exposes asInitializable (getSortedComponents c false)) ∧
  (ph_err (Start c w).2 = None →
   started c = false ∧
   ph_calls (Start c w).2 =
     (λ i, (i, None)) <$> exposes asStartable (getSortedComponents c false) ∧
   (Start c w).1 =
     mkContainer (componentsByName c) (componentsByType c) (components c) true).
Proof.
  split.
  - apply abortingLoop_success.
  - apply Start_success_calls.
Qed.

(** X13. [Stop] always re-arms the container: after [Stop] on a started
    container, whether or not a [Stop] callback failed, the next [Start]
    is not refused and runs the loop over the same components again. *)
Theorem Start_after_Stop (c : Container) (w w' : World) :
  started c = true →
  started (Stop c w).1 = false ∧
  components (Stop c w).1 = components c ∧
  (Start (Stop c w).1 w').2 =
    abortingLoop asStartable ErrStartFailed (getSortedComponents c false) w'.
Proof.
  intros Hs. unfold Stop. rewrite Hs. simpl. split_and!; [done..|].
  by rewrite Start_runs_loop.
Qed.

End RunSection.

(** ** The optional suffix *)

Lemma append_cons (a : ascii) (s1 s2 : string) :
  String a s1 +:+ s2 = String a (s1 +:+ s2).
Proof. done. Qed.

Lemma string_length_app (s1 s2 : string) :
  String.length (s1 +:+ s2) = (String.length s1 + String.length s2)%nat.
Proof. induction s1 as [|a s1 IH]; [done|]. rewrite append_cons. simpl. by rewrite IH. Qed.

Lemma substring_all (s : string) : String.substring 0 (String.length s) s = s.
Proof. induction s as [|a s IH]; [done|]. simpl. by rewrite IH. Qed.

Lemma substring_app_l (s1 s2 : string) :
  String.substring 0 (String.length s1) (s1 +:+ s2) = s1.
Proof.
  induction s1 as [|a s1 IH]; [by destruct s2|]. rewrite append_cons. simpl. by rewrite IH.
Qed.

Lemma substring_app_r (s1 s2 : string) (n : nat) :
  String.substring (String.length s1) n (s1 +:+ s2) = String.substring 0 n s2.
Proof. induction s1 as [|a s1 IH]; [done|]. rewrite append_cons. simpl. by rewrite IH. Qed.

Lemma optional_suffix_appended (name : string) :
  name ≠ "" →
  hasOptionalSuffix (name +:+ ",optional") = true ∧
  stripOptionalSuffix (name +:+ ",optional") = name.
Proof.
  intros Hne. unfold hasOptionalSuffix, stripOptionalSuffix.
  rewrite string_length_app. simpl String.length.
  replace (String.length name + 9 - 9)%nat with (String.length name) by lia.
  rewrite substring_app_r, substring_app_l. split; [|done].
  rewrite bool_decide_true; [done|].
  destruct name; [done|]. simpl. lia.
Qed.

Section OptionalSuffix.
Context {uc : UserCode}.

(** X15. Appending [,optional] to a name (any name but the empty one
    and [required]) gives a directive that looks that very name up and
    cannot fail: an exported field so tagged is set to the component of
    that name when there is one and it is assignable to the field, and is
    left alone otherwise; injection neither returns an error nor panics on
    it. *)
Theorem named_optional_never_fails (c : Container) (i : nat) (name field componentTag : string)
    (fieldType : RType) (obj : gmap nat Instance) :
  name ≠ "" → name ≠ "required" →
  injectField c i (mkField field fieldType (Some (name +:+ ",optional")) componentTag true) obj =
    match componentsByName c !! name with
    | Some info =>
        if AssignableTo (inst_type (Instance_ info)) fieldType
        then Continue (<[i := Instance_ info]> obj)
        else Continue obj
    | None => Continue obj
    end.
Proof.
  intros Hne Hnr. destruct (optional_suffix_appended name Hne) as [Hsuf Hstrip].
  assert (9 < String.length (name +:+ ",optional"))%nat as Hlen.
  { unfold hasOptionalSuffix in Hsuf. by apply andb_true_iff in Hsuf as [?%bool_decide_eq_true _]. }
  unfold injectField, resolveDependencyUnsafe. cbn [fd_autowire fd_exported fd_type fd_name negb].
  rewrite Hsuf, Hstrip.
  rewrite (bool_decide_false (name +:+ ",optional" = "optional")).
  2: { intros Heq. rewrite Heq in Hlen. simpl in Hlen. lia. }
  rewrite (bool_decide_false (name +:+ ",optional" = "?")).
  2: { intros Heq. rewrite Heq in Hlen. simpl in Hlen. lia. }
  rewrite (bool_decide_false (name = "required")), (bool_decide_false (name = "")) by done.
  simpl. unfold getByNameUnsafe.
  destruct (componentsByName c !! name) as [info|]; [|done].
  destruct (AssignableTo (inst_type (Instance_ info)) fieldType) eqn:Has; simpl; [|done].
  by rewrite Has.
Qed.
End OptionalSuffix.

(** ** The scanner *)

Section ScannerOutcome.
Context {gs : GoStrings} {uc : UserCode}.

End ScannerOutcome.

(** ** The invariant of the store *)

Lemma store_wf_same (c c' : Container) :
  componentsByName c' = componentsByName c → components c' = components c →
  store_wf c → store_wf c'.
Proof.
  intros Hn Hc [Hcons Hnd]. split; [|by rewrite Hc].
  intros name info. rewrite Hn, Hc. apply Hcons.
Qed.

Section Invariant.
Context {rt : GoRuntime} {gs : GoStrings} {uc : UserCode}.

(** X17. On a new container, and after any sequence of the operations of
    the container, the index by name and the ordered collection agree and
    no two components have the same name: every operation keeps this.
    In such a store [GetByName] returns the instance of the one component
    of that name, and fails with the not-found error exactly for the names
    no component has. *)
Theorem store_invariant (c : Container) :
  store_wf NewContainer ∧
  (store_wf c →
   (∀ info, store_wf (registerComponent c info).1) ∧
   (∀ b, store_wf (register b c).1) ∧
   (∀ pending, store_wf (registerPendingBuilders c pending).1.1) ∧
   (∀ w instance, store_wf (AutoRegister c w instance).1.1) ∧
   store_wf (validateTypeRegistrations c).1 ∧
   (∀ w, store_wf (Initialize c w).1 ∧ store_wf (Start c w).1 ∧ store_wf (Stop c w).1) ∧
   (∀ name,
      match getByNameUnsafe c name with
      | Ok instance =>
          ∃ info, info ∈ components c ∧ Name info = name ∧ Instance_ info = instance ∧
                  ∀ other, other ∈ components c → Name other = name → other = info
      | Fail err => err = ErrNameNotFound name ∧ name ∉ Name <$> components c
      end)).
Proof.
  split; [apply store_wf_new|]. intros Hwf. split_and!.
  - intros info. by apply registerComponent_wf.
  - intros b. rewrite register_infoOf. by apply registerComponent_wf.
  - intros pending. by apply registerPendingBuilders_wf.
  - intros w instance. unfold AutoRegister.
    destruct (negb _); [done|].
    destruct (asComponent instance) as [[getName getPriority]|]; [|done].
    match goal with |- context [registerComponent c ?i] =>
      pose proof (registerComponent_wf c i Hwf) as Hstep;
      destruct (registerComponent c i) as [c' err] end.
    done.
  - apply (store_wf_same c); [..|done];
      unfold validateTypeRegistrations; by destruct (validateGroups _ ∅).
  - intros w. split_and!; [done| |].
    + apply (store_wf_same c); [..|done]; unfold Start;
        destruct (started c); [done| |done|];
        by destruct (ph_err (abortingLoop _ _ _ _)).
    + apply (store_wf_same c); [..|done]; unfold Stop; by destruct (started c).
  - intros name. destruct Hwf as [Hcons Hnd].
    pose proof (getByNameUnsafe_wf c name Hcons) as Hget.
    destruct (getByNameUnsafe c name) as [instance|err]; [|done].
    destruct Hget as (info & Hin & Hname & Hinst). exists info. split_and!; [done..|].
    intros other Hother Hoth.
    assert (componentsByName c !! name = Some other) as H1 by (by apply Hcons).
    assert (componentsByName c !! name = Some info) as H2 by (by apply Hcons).
    congruence.
Qed.
End Invariant.

(** * A program to run the container on *)

(** [strings.Split] for a separator that is not empty: [skip] bytes of a
    separator just found are still to pass, [cur] is the piece being read,
    last byte first. *)
Fixpoint splitOn (sep : string) (skip : nat) (cur s : string) : list string :=
  match s with
  | "" => [String.rev cur]
  | String a s' =>
      match skip with
      | S k => splitOn sep k cur s'
      | O =>
          if String.prefix sep s
          then String.rev cur :: splitOn sep (String.length sep - 1) "" s'
          else splitOn sep 0 (String a cur) s'
      end
  end.

Fixpoint explode (s : string) : list string :=
  match s with
  | "" => []
  | String a s' => String a "" :: explode s'
  end.

Fixpoint trimLeft (s : string) : string :=
  match s with
  | "" => ""
  | String a s' => if Ascii.is_space a then trimLeft s' else s
  end.

Fixpoint decimal (acc : Z) (s : string) : option Z :=
  match s with
  | "" => Some acc
  | String a s' =>
      match Ascii.is_nat a with
      | Some d => decimal (10 * acc + Z.of_nat d) s'
      | None => None
      end
  end.

Definition inInt64 (r : option Z) : option Z :=
  match r with
  | Some z => if bool_decide (- 2 ^ 63 ≤ z < 2 ^ 63) then Some z else None
  | None => None
  end.

(** [strings.Split], [strings.TrimSpace] and [strconv.Atoi] on ASCII
    text. *)
Definition asciiStrings : GoStrings := {|
  strings_Split s sep :=
    if bool_decide (sep = "") then explode s else splitOn sep 0 "" s;
  strings_TrimSpace s := String.rev (trimLeft (String.rev (trimLeft s)));
  strconv_Atoi s :=
    match s with
    | "" => None
    | String "+"%char s' => if bool_decide (s' = "") then None else inInt64 (decimal 0 s')
    | String "-"%char s' =>
        if bool_decide (s' = "") then None else inInt64 (Z.opp <$> decimal 0 s')
    | _ => inInt64 (decimal 0 s)
    end
|}.

(** The types of the program. *)
Definition tLogger : RType := mkRType 0 BInterface "main.Logger".
Definition tCache : RType := mkRType 0 BInterface "main.Cache".
Definition tFileLogger : RType := mkRType 1 BStruct "main.FileLogger".
Definition tConsoleLogger : RType := mkRType 1 BStruct "main.ConsoleLogger".
Definition tRedis : RType := mkRType 1 BStruct "main.Redis".
Definition tService : RType := mkRType 1 BStruct "main.Service".
Definition tLegacy : RType := mkRType 1 BStruct "main.Legacy".

(** [type Service struct] with its tags. *)
Definition serviceFields : list FieldDecl :=
  [ mkField "Logger" tLogger (Some "") "" true;
    mkField "logger" tLogger (Some "required") "" false;
    mkField "Debug" tLogger (Some "DebugLog,optional") "" true;
    mkField "Cache" tCache (Some "?") "" true;
    mkField "File" tLogger (Some "file") "" true ].

(** The program: the two loggers implement [Logger], [Redis] implements
    [Cache]; every component but a [Service] has the three lifecycle
    callbacks, which record the address of their receiver and fail on an
    address of 100 or more; [Legacy] is a [Component]. *)
Definition program : UserCode := {|
  World := list nat;
  structFields t :=
    if bool_decide (t = elemOf tService) then serviceFields else [];
  implements V T :=
    bool_decide ((V = tFileLogger ∨ V = tConsoleLogger) ∧ T = tLogger) ||
    bool_decide (V = tRedis ∧ T = tCache);
  asInitializable inst :=
    if bool_decide (inst_type inst = tService) then None
    else Some (λ w, (w ++ [inst_addr inst],
                     if bool_decide (100 ≤ inst_addr inst)%nat
                     then Some (UserError "init") else None));
  asStartable inst :=
    if bool_decide (inst_type inst = tService) then None
    else Some (λ w, (w ++ [inst_addr inst],
                     if bool_decide (100 ≤ inst_addr inst)%nat
                     then Some (UserError "start") else None));
  asStoppable inst :=
    if bool_decide (inst_type inst = tService) then None
    else Some (λ w, (w ++ [inst_addr inst],
                     if bool_decide (100 ≤ inst_addr inst)%nat
                     then Some (UserError "stop") else None));
  asComponent inst :=
    if bool_decide (inst_type inst = tLegacy)
    then Some (λ _, "legacy", λ _, 100) else None;
  asNameSetter inst := None
|}.

(** Registration of a list of descriptors on a new container. *)
Definition storeOf (infos : list ComponentInfo) : Container :=
  foldl (λ c info, (registerComponent c info).1) NewContainer infos.

(** The same store, started. *)
Definition startedStoreOf (infos : list ComponentInfo) : Container :=
  let c := storeOf infos in
  mkContainer (componentsByName c) (componentsByType c) (components c) true.

Definition fileLogger : ComponentInfo :=
  mkInfo (mkInstance tFileLogger 1) (Some tFileLogger) "file" 10
         [tFileLogger; tLogger] false.
Definition consoleLogger : ComponentInfo :=
  mkInfo (mkInstance tConsoleLogger 2) (Some tConsoleLogger) "console" 10
         [tConsoleLogger; tLogger] true.
Definition service : ComponentInfo :=
  mkInfo (mkInstance tService 3) (Some tService) "service" 5 [tService] false.
Definition failingLogger : ComponentInfo :=
  mkInfo (mkInstance tFileLogger 100) (Some tFileLogger) "broken" 7 [tFileLogger] false.
Definition failingCache : ComponentInfo :=
  mkInfo (mkInstance tRedis 101) (Some tRedis) "redis" 3 [tRedis] false.

#[local] Existing Instances smallSliceRuntime asciiStrings program.

Definition secondFile : ComponentInfo :=
  mkInfo (mkInstance tConsoleLogger 2) (Some tConsoleLogger) "file" 0 [tConsoleLogger] false.

Definition fourComponents : list ComponentInfo :=
  [fileLogger; failingLogger; failingCache; service].

Definition threeComponents : list ComponentInfo :=
  [fileLogger; consoleLogger; service].

(** Two loggers, none primary, and two caches, both primary. *)
Definition twoFaults : list ComponentInfo :=
  [ fileLogger;
    mkInfo (mkInstance tConsoleLogger 2) (Some tConsoleLogger) "console" 10
           [tConsoleLogger; tLogger] false;
    mkInfo (mkInstance tRedis 5) (Some tRedis) "redis" 0 [tRedis; tCache] true;
    mkInfo (mkInstance tRedis 6) (Some tRedis) "redis2" 0 [tRedis; tCache] true ].

(** A builder on which [Export] is called twice with a nil pointer to
    [Logger]: one logger, which exports [Logger] twice. *)
Definition exportedTwice : ObjectBuilder :=
  applyCalls (newObjectBuilder (mkInstance tFileLogger 1))
    [CallExport (mkRType 1 BInterface "main.Logger");
     CallExport (mkRType 1 BInterface "main.Logger")].

(** A file logger registered under the name [required], next to the
    primary console logger; the store is validated. *)
Definition namedRequired : Container :=
  (validateTypeRegistrations
     (storeOf [ mkInfo (mkInstance tFileLogger 1) (Some tFileLogger) "required" 0
                       [tFileLogger; tLogger] false;
                consoleLogger ])).1.

(** The validated store of the three components, and a heap in which the
    service has all its fields nil. *)
Definition wired : Container :=
  (validateTypeRegistrations (storeOf threeComponents)).1.

Definition serviceHeap : gmap nat (gmap nat Instance) := {[ 3%nat := ∅ ]}.

(** * The properties on the program *)

Lemma storeOf_consistent (infos : list ComponentInfo) : store_consistent (storeOf infos).
Proof.
  unfold storeOf. generalize store_consistent_new. generalize NewContainer.
  induction infos as [|info infos IH]; intros c Hc; simpl; [done|].
  by apply IH, registerComponent_consistent.
Qed.

(** ** The store *)

Lemma registerComponent_duplicate_run :
  registerComponent (storeOf [fileLogger; service]) secondFile =
    (storeOf [fileLogger; service],
     Some (ErrAlreadyRegistered "file" (Some tFileLogger) (Some tConsoleLogger)))
  ∧ components (registerComponent (storeOf [fileLogger; service]) secondFile).1 =
      [fileLogger; service]
  ∧ componentsByName (registerComponent (storeOf [fileLogger; service]) secondFile).1
      !! "file" = Some fileLogger.
Proof.
  apply (registerComponent_duplicate (storeOf [fileLogger; service]) secondFile fileLogger).
  - apply storeOf_consistent.
  - apply (bool_decide_unpack _). vm_compute. exact I.
  - reflexivity.
Defined.

(** ** The lifecycle *)


Lemma Start_failed_partway_run :
  ph_calls (Start (rt := smallSliceRuntime) (uc := program) (storeOf fourComponents) []).2 =
    [(fileLogger, None); (failingLogger, Some (UserError "start"))] ∧
  ∀ w', Stop (rt := smallSliceRuntime) (uc := program) (storeOf fourComponents) w' =
          (storeOf fourComponents, mkPhase (uc := program) w' [] None).
Proof.
  split; [by vm_compute|].
  apply (Start_failed_partway (rt := smallSliceRuntime) (uc := program)
           (storeOf fourComponents) (storeOf fourComponents) []
           (Start (rt := smallSliceRuntime) (uc := program) (storeOf fourComponents) []).2
           "broken" (UserError "start")).
  - by vm_compute.
  - by vm_compute.
Defined.

Lemma phase_aborts_on_failure_run :
  ph_err (Start (rt := smallSliceRuntime) (uc := program) (storeOf fourComponents) []).2 =
    Some (ErrStartFailed "broken" (UserError "start")) ∧
  ph_err (Initialize (rt := smallSliceRuntime) (uc := program) (storeOf fourComponents) []).2 =
    Some (ErrInitFailed "broken" (UserError "init")).
Proof.
  split.
  - destruct (proj2 (phase_aborts_on_failure (rt := smallSliceRuntime) (uc := program)
                       (storeOf fourComponents) [] failingLogger (UserError "start")))
      as (pre & post & _ & _ & Herr & _); [|exact Herr].
    apply (bool_decide_unpack _). vm_compute. exact I.
  - destruct (proj1 (phase_aborts_on_failure (rt := smallSliceRuntime) (uc := program)
                       (storeOf fourComponents) [] failingLogger (UserError "init")))
      as (pre & post & _ & _ & Herr); [|exact Herr].
    apply (bool_decide_unpack _). vm_compute. exact I.
Defined.

Lemma Stop_visits_all_keeps_last_run :
  (ph_calls (Stop (rt := smallSliceRuntime) (uc := program)
               (startedStoreOf fourComponents) []).2).*1 =
    exposes asStoppable
      (getSortedComponents (rt := smallSliceRuntime) (startedStoreOf fourComponents) true) ∧
  ph_err (Stop (rt := smallSliceRuntime) (uc := program)
            (startedStoreOf fourComponents) []).2 =
    match last (failures (ph_calls (Stop (rt := smallSliceRuntime) (uc := program)
                                      (startedStoreOf fourComponents) []).2)) with
    | Some (info, err) => Some (ErrShutdownFailed (Name info) err)
    | None => None
    end ∧
  started (Stop (rt := smallSliceRuntime) (uc := program)
             (startedStoreOf fourComponents) []).1 = false.
Proof.
  apply (Stop_visits_all_keeps_last (rt := smallSliceRuntime) (uc := program)
           (startedStoreOf fourComponents) []).
  reflexivity.
Defined.

(** Two components fail to stop; the error names the last one only. *)
Lemma Stop_loses_earlier_failure :
  ¬ Stop_reports_every_failure (rt := smallSliceRuntime) (uc := program)
      (startedStoreOf fourComponents) [].
Proof.
  intros [_ Hall].
  destruct (Hall failingCache (UserError "stop")) as (e & He & Hin).
  { apply (bool_decide_unpack _). vm_compute. exact I. }
  vm_compute in He. injection He as <-.
  apply (bool_decide_pack _) in Hin. vm_compute in Hin. exact Hin.
Qed.

(** ** The order of the phases *)

(** Two components of equal priority are started in registration order
    and stopped in registration order again, not in reverse. *)
Lemma Stop_order_not_reverse_on_ties :
  getSortedComponents (storeOf [fileLogger; consoleLogger]) false =
    [fileLogger; consoleLogger] ∧
  getSortedComponents (storeOf [fileLogger; consoleLogger]) true =
    [fileLogger; consoleLogger] ∧
  ¬ order_as_specified (storeOf [fileLogger; consoleLogger]).
Proof.
  split_and!; [by vm_compute..|].
  intros (_ & _ & _ & Hrev). vm_compute in Hrev. discriminate Hrev.
Qed.

Lemma lifecycle_order_run :
  getSortedComponents (storeOf fourComponents) true =
  reverse (getSortedComponents (storeOf fourComponents) false).
Proof.
  apply (lifecycle_order (storeOf fourComponents)).
  assert (Forall (λ a, Forall (λ b, Priority a = Priority b → a = b)
                         (components (storeOf fourComponents)))
            (components (storeOf fourComponents))) as Hdistinct.
  { apply (bool_decide_unpack _). vm_compute. exact I. }
  intros a b Ha Hb. rewrite Forall_forall in Hdistinct.
  specialize (Hdistinct a Ha). rewrite Forall_forall in Hdistinct.
  exact (Hdistinct b Hb).
Defined.

(** ** The resolver *)

(** With two capabilities at fault only one error is returned, so the
    other capability does not get its own; and a single provider that
    exports a capability twice is rejected as ambiguous with itself. *)
Lemma resolution_not_as_specified :
  ¬ resolution_as_specified (storeOf twoFaults) ∧
  (exporting tLogger (components (register exportedTwice NewContainer).1) =
     [mkInfo (mkInstance tFileLogger 1) (Some tFileLogger) "main.FileLogger" 0
             [tFileLogger; tLogger; tLogger] false] ∧
   (validateTypeRegistrations (register exportedTwice NewContainer).1).2 =
     Some (ErrAmbiguous tLogger ["main.FileLogger"; "main.FileLogger"]) ∧
   ¬ resolution_as_specified (register exportedTwice NewContainer).1).
Proof.
  split_and!.
  - intros Hspec.
    destruct (Hspec tLogger) as [_ Hl]. destruct (Hspec tCache) as [_ Hc].
    destruct Hl as (_ & Hamb & _); [vm_compute; lia|].
    destruct Hc as (_ & _ & Hmul); [vm_compute; lia|].
    specialize (Hamb ltac:(by vm_compute)).
    specialize (Hmul ltac:(vm_compute; lia)).
    rewrite Hamb in Hmul. vm_compute in Hmul. discriminate Hmul.
  - by vm_compute.
  - by vm_compute.
  - intros Hspec. destruct (Hspec tLogger) as [Hone _].
    specialize (Hone _ ltac:(by vm_compute)).
    vm_compute in Hone. discriminate Hone.
Qed.

Lemma resolution_by_group_run :
  componentsByType (validateTypeRegistrations (storeOf threeComponents)).1 !! tLogger =
    Some consoleLogger ∧
  componentsByType (validateTypeRegistrations (storeOf threeComponents)).1 !! tService =
    Some service.
Proof.
  destruct (resolution_by_group (storeOf threeComponents)) as (_ & _ & Hsel & _).
  { apply Forall_forall, (bool_decide_unpack _). vm_compute. exact I. }
  specialize (Hsel ltac:(by vm_compute)). split.
  - destruct (Hsel tLogger) as [_ Hmany].
    destruct Hmany as (p & Hp & Hl); [vm_compute; lia|].
    vm_compute in Hp. injection Hp as <-. exact Hl.
  - destruct (Hsel tService) as [Hone _]. apply Hone. by vm_compute.
Defined.

(** ** The injection engine *)

(** The tag [required,optional] resolves by the type of the field, not by
    the name [required]; and the bare tag [,optional] is a required name
    like any other, where the grammar reads an optional empty name. *)
Lemma directive_not_as_grammar :
  (fieldDecision namedRequired tLogger "required,optional" =
     Bind (mkInstance tConsoleLogger 2) ∧
   resolveBy namedRequired tLogger (grammarDirective "required,optional") =
     Bind (mkInstance tFileLogger 1)) ∧
  (fieldDecision NewContainer tLogger ",optional" = Fatal (ErrNameNotFound ",optional") ∧
   resolveBy NewContainer tLogger (grammarDirective ",optional") = Skip) ∧
  ¬ (∀ c fieldType tag,
       fieldDecision c fieldType tag = resolveBy c fieldType (grammarDirective tag)).
Proof.
  split_and!; [by vm_compute..|].
  intros Hall. specialize (Hall NewContainer tLogger ",optional").
  vm_compute in Hall. discriminate Hall.
Qed.



(** ** The registration paths *)

(** C9 on the scanner path. [AutoRegister] of a [Legacy] component on a
    new container succeeds, and the descriptor it stores has no exported
    type and no instance type; the same instance committed through the
    builder exports its own type. *)
Theorem AutoRegister_exports_no_type :
  (let '(c, _, err) := AutoRegister NewContainer [] (mkInstance tLegacy 9) in
   err = None ∧
   components c = [mkInfo (mkInstance tLegacy 9) None "legacy" 100 [] false] ∧
   ¬ exports_own_type c) ∧
  components (register (newObjectBuilder (mkInstance tLegacy 9)) NewContainer).1 =
    [mkInfo (mkInstance tLegacy 9) (Some tLegacy) "main.Legacy" 0 [tLegacy] false].
Proof.
  split; [|by vm_compute].
  assert (AutoRegister NewContainer [] (mkInstance tLegacy 9) =
          (storeOf [mkInfo (mkInstance tLegacy 9) None "legacy" 100 [] false], [], None))
    as -> by (by vm_compute).
  split_and!; [done|by vm_compute|].
  intros Hown. specialize (Hown _ ltac:(vm_compute; left)).
  by apply elem_of_nil in Hown.
Qed.

(** * More of the package, on the program *)

(** A runtime whose [range] visits the groups in the opposite order. *)
Definition reversedRangeRuntime : GoRuntime := {|
  sort_Slice := insertionSort;
  sort_Slice_perm := insertionSort_perm;
  sort_Slice_sorted := λ less l Hless, insertionSort_sorted less Hless l;
  map_range m := reverse (map_to_list m);
  map_range_perm := λ m, reverse_Permutation (map_to_list m)
|}.

(** Two builders that are given no name, for two file loggers. *)
Definition twoUnnamed : list ObjectBuilder :=
  [newObjectBuilder (mkInstance tFileLogger 1); newObjectBuilder (mkInstance tFileLogger 7)].



(** A cache that exports [Logger], which it does not implement;
    validated. *)
Definition misexported : Container :=
  (validateTypeRegistrations
     (storeOf [mkInfo (mkInstance tRedis 5) (Some tRedis) "redis" 0 [tRedis; tLogger] false])).1.

(** The service alone, validated: nothing provides [Logger]. *)
Definition lonely : Container := (validateTypeRegistrations (storeOf [service])).1.

Lemma storeOf_wf (infos : list ComponentInfo) : store_wf (storeOf infos).
Proof.
  unfold storeOf. generalize store_wf_new. generalize NewContainer.
  induction infos as [|info infos IH]; intros c Hc; simpl; [done|].
  by apply IH, registerComponent_wf.
Qed.

Lemma register_then_lookup_run :
  getByNameUnsafe (registerComponent (storeOf [fileLogger]) service).1 "service" =
    Ok (Instance_ service) ∧
  getByNameUnsafe (registerComponent (storeOf [fileLogger]) service).1 "file" =
    getByNameUnsafe (storeOf [fileLogger]) "file".
Proof.
  destruct (register_then_lookup (storeOf [fileLogger]) service) as (_ & _ & Hnew & Hold & _).
  { by vm_compute. }
  split; [exact Hnew|]. apply Hold. discriminate.
Defined.

Lemma registerPendingBuilders_retry_run :
  ∃ existing,
    registerPendingBuilders (registerPendingBuilders NewContainer twoUnnamed).1.1 twoUnnamed =
      ((registerPendingBuilders NewContainer twoUnnamed).1.1, twoUnnamed,
       Some (ErrAlreadyRegistered "main.FileLogger" (InstanceType existing) (Some tFileLogger))).
Proof.
  destruct (registerPendingBuilders_retry twoUnnamed twoUnnamed NewContainer
              (registerPendingBuilders NewContainer twoUnnamed).1.1
              (ErrAlreadyRegistered "main.FileLogger" (Some tFileLogger) (Some tFileLogger)))
    as (b & rest & existing & Hp & _ & Hagain).
  { by vm_compute. }
  injection Hp as <- <-. by exists existing.
Defined.

Lemma default_names_collide_run :
  ∃ existing,
    register (newObjectBuilder (mkInstance (elemOf tFileLogger) 8))
      (register (newObjectBuilder (mkInstance tFileLogger 1)) NewContainer).1 =
    ((register (newObjectBuilder (mkInstance tFileLogger 1)) NewContainer).1,
     Some (ErrAlreadyRegistered "main.FileLogger" (InstanceType existing)
             (Some (elemOf tFileLogger)))).
Proof.
  destruct (default_names_collide NewContainer (mkInstance tFileLogger 1)
              (mkInstance (elemOf tFileLogger) 8)) as [_ Hsecond].
  { right. split_and!; [reflexivity|reflexivity|discriminate]. }
  exact Hsecond.
Defined.

Lemma lookup_by_type_sound_run :
  ∃ info,
    info ∈ components (storeOf threeComponents) ∧ tLogger ∈ ExportedTypes info ∧
    Instance_ info = Instance_ consoleLogger ∧
    (exportersOf tLogger (components (storeOf threeComponents)) = [info] ∨
     IsPrimary info = true).
Proof.
  apply (lookup_by_type_sound (storeOf threeComponents) tLogger (Instance_ consoleLogger)).
  by vm_compute.
Defined.

Lemma validation_order_independent_run :
  validateTypeRegistrations (rt := reversedRangeRuntime) (storeOf threeComponents) =
  validateTypeRegistrations (rt := smallSliceRuntime) (storeOf threeComponents).
Proof.
  apply (validation_order_independent smallSliceRuntime reversedRangeRuntime).
  by vm_compute.
Defined.

Lemma injectField_panics_run :
  injectField misexported 0 (mkField "Logger" tLogger (Some "") "" true) ∅ = Panics.
Proof.
  apply (injectField_panics_iff misexported 0 (mkField "Logger" tLogger (Some "") "" true) ∅).
  exists "", (mkInfo (mkInstance tRedis 5) (Some tRedis) "redis" 0 [tRedis; tLogger] false).
  split_and!; by vm_compute.
Defined.


Lemma injectComponentUnsafe_again_run :
  ∃ heap',
    injectComponentUnsafe wired serviceHeap (Instance_ service) = Returned heap' None ∧
    injectComponentUnsafe wired heap' (Instance_ service) = Returned heap' None.
Proof.
  eexists.
  assert (injectComponentUnsafe wired serviceHeap (Instance_ service) = Returned _ None)
    as Hrun by (vm_compute; reflexivity).
  split; [exact Hrun|].
  exact (injectComponentUnsafe_again wired serviceHeap _ (Instance_ service) Hrun).
Defined.

Lemma InjectDependencies_error_run :
  ∃ pre info post heap1 fd tag cause,
    components lonely = pre ++ info :: post ∧
    injectAll lonely pre serviceHeap = Returned heap1 None ∧
    fd ∈ structFields (elemOf (inst_type (Instance_ info))) ∧
    fd_autowire fd = Some tag ∧ fd_exported fd = true ∧
    optional (parsedDirective tag) = false ∧
    resolveBy lonely (fd_type fd) (parsedDirective tag) = Fatal cause ∧
    ErrInjectFailed "service" (ErrAutowireField "Logger" (ErrTypeNotFound tLogger)) =
      ErrInjectFailed (Name info) (ErrAutowireField (fd_name fd) cause).
Proof.
  apply (InjectDependencies_error lonely serviceHeap serviceHeap).
  by vm_compute.
Defined.

Lemma phase_success_run :
  ph_calls (Start (uc := program) (storeOf threeComponents) []).2 =
    (λ i, (i, None)) <$> exposes asStartable (getSortedComponents (storeOf threeComponents) false) ∧
  started (Start (uc := program) (storeOf threeComponents) []).1 = true.
Proof.
  destruct (proj2 (phase_success (uc := program) (storeOf threeComponents) [])) as (_ & Hcalls & Hc).
  { by vm_compute. }
  split; [exact Hcalls|]. by rewrite Hc.
Defined.

Lemma Start_after_Stop_run :
  started (Stop (uc := program) (startedStoreOf fourComponents) []).1 = false ∧
  components (Stop (uc := program) (startedStoreOf fourComponents) []).1 =
    components (startedStoreOf fourComponents) ∧
  (Start (uc := program) (Stop (uc := program) (startedStoreOf fourComponents) []).1 []).2 =
    abortingLoop (uc := program) asStartable ErrStartFailed
      (getSortedComponents (startedStoreOf fourComponents) false) [].
Proof.
  apply (Start_after_Stop (uc := program) (startedStoreOf fourComponents) [] []). reflexivity.
Defined.


Lemma named_optional_never_fails_run :
  injectField wired 2 (mkField "Debug" tLogger (Some ("DebugLog" +:+ ",optional")) "" true) ∅ =
    Continue ∅ ∧
  injectField wired 2 (mkField "Debug" tLogger (Some ("file" +:+ ",optional")) "" true) ∅ =
    Continue {[ 2%nat := Instance_ fileLogger ]}.
Proof.
  split.
  - rewrite (named_optional_never_fails wired 2 "DebugLog" "Debug" "" tLogger ∅);
      [by vm_compute|discriminate|discriminate].
  - rewrite (named_optional_never_fails wired 2 "file" "Debug" "" tLogger ∅);
      [by vm_compute|discriminate|discriminate].
Defined.


Lemma store_invariant_run :
  store_wf (registerPendingBuilders (storeOf threeComponents) twoUnnamed).1.1 ∧
  store_wf (validateTypeRegistrations (storeOf threeComponents)).1.
Proof.
  destruct (store_invariant (storeOf threeComponents)) as [_ Hkeeps].
  destruct (Hkeeps (storeOf_wf threeComponents)) as (_ & _ & Hpending & _ & Hvalid & _).
  split; [apply Hpending|exact Hvalid].
Defined.
